(** * Envelope-key sealing over a static master key (package crypto, kms.go)

    A shallow embedding of the canonical [Context] encoding, of the key
    derivation and of the reference master-key KMS backend, followed by the
    properties of the specification that were checked against it. The
    construction of audit entries (package audit, entry.go) is embedded too.

    Go values are represented as follows:
    - a Go [string] is a [string] (a sequence of 8-bit characters);
    - a [[]byte] is a [list byte], a [[32]byte] array a [list byte] of
      length 32;
    - a [map[string]string] is a [gmap string string]; the nil map is kept
      apart from the empty one;
    - an [error] is an [option error], [None] being Go's [nil];
    - [int] and [int64] are [Z], with the 64-bit wrap-around written out. *)

From Stdlib Require Import ZArith Lia.
From Stdlib Require Import Strings.String Strings.Ascii Strings.Byte.
From stdpp Require Import gmap strings list sorting.

Local Open Scope Z_scope.

(** ** Go preliminaries *)

Module Go.

(** [errors.New msg]. *)
Inductive error : Type :=
  | errors_New (msg : string).

(** Bytes are compared with [==]. *)
#[export] Instance byte_eq_dec : EqDecision byte := Byte.byte_eq_dec.

(** [[]byte(s)]. *)
Definition bytes_of_string (s : string) : list byte := list_byte_of_string s.

(** The double quote character, which cannot be written inside a literal. *)
Definition dquote : ascii := "034"%char.

Definition quote : string := String dquote EmptyString.

(** [s[:len(s)-1]] on a string. For the empty string Go panics (slice bounds
    out of range); the only call site slices a string that ends in a comma. *)
Definition drop_last (s : string) : string :=
  String.substring 0 (String.length s - 1) s.

(** Two's complement wrap-around of an [int64]. *)
Definition wrap64 (x : Z) : Z := (x + 2 ^ 63) mod 2 ^ 64 - 2 ^ 63.

Definition add64 (x y : Z) : Z := wrap64 (x + y).

(** [sort.Strings] and [sort.Sort(sort.StringSlice)]: ascending order of Go's
    [<] on strings, which compares byte by byte. Any sorting algorithm returns
    the same slice, since strings that compare equal are equal. *)
Definition sort_Strings (l : list string) : list string :=
  merge_sort String.le l.

(** [append(arr[:0], data...)] seen from the backing array [arr]: when [data]
    fits in the capacity the array is overwritten in place, otherwise a new
    array is allocated and [arr] keeps its content. *)
Definition append_at0 (arr data : list byte) : list byte :=
  if (length data <=? length arr)%nat
  then data ++ drop (length data) arr
  else arr.

(** A zeroed [[32]byte]. *)
Definition zero32 : list byte := replicate 32 x00.

(** [io.Writer]. [Write w p] returns the writer after the call, the number of
    bytes written and the error. *)
Class Writer (W : Type) := Write : W -> list byte -> W * (Z * option error).

(** [io.WriteString(w, s)]. *)
Definition io_WriteString {W} `{Writer W} (w : W) (s : string)
  : W * (Z * option error) :=
  Write w (bytes_of_string s).

(** [bytes.Buffer]: its content; writing appends and never fails. *)
Definition Buffer : Type := list byte.

#[export] Instance Buffer_Writer : Writer Buffer :=
  fun b p => (b ++ p, (Z.of_nat (length p), None)).

(** A writer with a bounded capacity: it accepts what still fits and then
    reports a short write, as [io.Writer] implementations must. *)
Record LimitedWriter : Type :=
  { lw_data : list byte; lw_room : nat }.

Definition io_ErrShortWrite : error := errors_New "short write".

#[export] Instance LimitedWriter_Writer : Writer LimitedWriter :=
  fun w p =>
    if (length p <=? lw_room w)%nat
    then ({| lw_data := lw_data w ++ p; lw_room := lw_room w - length p |},
          (Z.of_nat (length p), None))
    else ({| lw_data := lw_data w ++ take (lw_room w) p; lw_room := 0 |},
          (Z.of_nat (lw_room w), Some io_ErrShortWrite)).

End Go.

Import Go.

(** ** The canonical Context encoding *)

(** [type Context map[string]string]. [Context_nil] is the nil map, which
    reads like an empty one. *)
Inductive Context : Type :=
  | Context_nil
  | Context_map (m : gmap string string).

Definition entries (c : Context) : gmap string string :=
  match c with
  | Context_nil => ∅
  | Context_map m => m
  end.

(** [len(c)]. *)
Definition len (c : Context) : nat := size (entries c).

(** [c[k]]: the zero value for a key that is absent. *)
Definition index (c : Context) (k : string) : string :=
  default EmptyString (entries c !! k).

(** [for k, v := range c] visits every entry once, in an order the runtime
    chooses anew at each loop. The functions below take that order as the
    argument [ord]; [range_of c ord] says that [ord] is such an order. *)
Definition range_of (c : Context) (ord : list (string * string)) : Prop :=
  ord ≡ₚ map_to_list (entries c).

Definition lbrace : byte := "{"%byte.
Definition rbrace : byte := "}"%byte.
Definition comma : byte := ","%byte.
Definition dquote_byte : byte := x22.

(** The loop of [WriteTo] over the sorted keys, [i] being the index of the
    head of [ks] and [total] the length of the whole slice. [inr] is an early
    return, [inl] the writer and byte count when the loop has run through. *)
Fixpoint WriteTo_loop {W} `{Writer W} (c : Context) (total : nat) (i : nat)
    (ks : list string) (w : W) (n : Z)
  : (W * Z) + (W * (Z * option error)) :=
  match ks with
  | [] => inl (w, n)
  | k :: ks' =>
      let s := quote +:+ k +:+ quote +:+ ":" +:+ quote +:+ index c k
                     +:+ quote +:+ "," in
      let s := if Z.of_nat i =? Z.of_nat total - 1 then drop_last s else s in
      let '(w, (nn, err)) := io_WriteString w s in
      match err with
      | Some e => inr (w, (add64 n nn, Some e))
      | None => WriteTo_loop c total (S i) ks' w (add64 n nn)
      end
  end.

(** [func (c Context) WriteTo(w io.Writer) (n int64, err error)]. *)
Definition WriteTo {W} `{Writer W} (c : Context) (ord : list (string * string))
    (w : W) : W * (Z * option error) :=
  let sortedKeys := sort_Strings (ord.*1) in
  let n := 0 in
  let '(w, (nn, err)) := io_WriteString w "{" in
  match err with
  | Some e => (w, (add64 n nn, Some e))
  | None =>
      let n := add64 n nn in
      match WriteTo_loop c (length sortedKeys) 0 sortedKeys w n with
      | inr r => r
      | inl (w, n) =>
          let '(w, (nn, err)) := io_WriteString w "}" in
          (w, (add64 n nn, err))
      end
  end.

(** The single-entry path of [AppendTo]: the [range] loop over a map of
    length one, writing into the buffer [out]. *)
Definition AppendTo_single (ord : list (string * string)) (out : Buffer)
  : Buffer :=
  foldl (fun out kv =>
           let out := out ++ bytes_of_string ("{" +:+ quote) in
           let out := out ++ bytes_of_string kv.1 in
           let out := out ++ bytes_of_string (quote +:+ ":" +:+ quote) in
           let out := out ++ bytes_of_string kv.2 in
           out ++ bytes_of_string (quote +:+ "}"))
        out ord.

(** The loop of the general path of [AppendTo] over the sorted keys. *)
Fixpoint AppendTo_loop (c : Context) (total : nat) (i : nat)
    (ks : list string) (out : Buffer) : Buffer :=
  match ks with
  | [] => out
  | k :: ks' =>
      let out := out ++ [dquote_byte] in
      let out := out ++ bytes_of_string k in
      let out := out ++ bytes_of_string (quote +:+ ":" +:+ quote) in
      let out := out ++ bytes_of_string (index c k) in
      let out := out ++ [dquote_byte] in
      let out :=
        if Z.of_nat i <? Z.of_nat total - 1 then out ++ [comma] else out in
      AppendTo_loop c total (S i) ks' out
  end.

(** The general path of [AppendTo]: copy the keys, sort them, write. *)
Definition AppendTo_sorted (c : Context) (ord : list (string * string))
    (out : Buffer) : Buffer :=
  let sortedKeys := sort_Strings (ord.*1) in
  let out := out ++ [lbrace] in
  let out := AppendTo_loop c (length sortedKeys) 0 sortedKeys out in
  out ++ [rbrace].

(** [func (c Context) AppendTo(dst []byte) (output []byte)]. *)
Definition AppendTo (c : Context) (ord : list (string * string))
    (dst : list byte) : list byte :=
  if (len c =? 0)%nat then dst ++ [lbrace; rbrace]
  else
    let out : Buffer := dst in
    if (len c =? 1)%nat then AppendTo_single ord out
    else AppendTo_sorted c ord out.

(** *** The canonical form in the words of the specification

    "A JSON-like object whose keys appear in strictly ascending
    lexicographic (byte-wise) order, with no added whitespace, using the
    literal pattern [{"k1":"v1","k2":"v2"}], and [{}] for an empty mapping",
    keys and values verbatim. *)

(** One ["k":"v"] member. *)
Definition member (c : Context) (k : string) : list byte :=
  [dquote_byte] ++ bytes_of_string k ++ [dquote_byte; ":"%byte; dquote_byte]
    ++ bytes_of_string (index c k) ++ [dquote_byte].

(** The members of the keys [ks], separated by commas. *)
Fixpoint members (c : Context) (ks : list string) : list byte :=
  match ks with
  | [] => []
  | [k] => member c k
  | k :: ks' => member c k ++ [comma] ++ members c ks'
  end.

Definition canonical (c : Context) : list byte :=
  [lbrace] ++ members c (sort_Strings (map_to_list (entries c)).*1)
    ++ [rbrace].

(** ** The KMS interface and the master-key backend *)

(** [type masterKeyKMS struct]. *)
Record masterKeyKMS : Type :=
  { keyID : string; masterKey : list byte }.

(** [type KMSInfo struct]. *)
Record KMSInfo : Type :=
  { Endpoints : list string; Name : string; AuthType : string }.

(** What a call leaves behind: a normal return, or the fatal condition
    raised through the logger. *)
Inductive result (A : Type) : Type :=
  | Returned (a : A)
  | Fatal (e : error).

Arguments Returned {A} a.
Arguments Fatal {A} e.

(** The store the methods run against: the backend object behind the
    [*masterKeyKMS] receiver, and the bytes [crypto/rand.Reader] can still
    deliver. *)
Record Store : Type :=
  { self : masterKeyKMS; rand_Reader : list byte }.

(** Computations over the store that may end in a fatal condition. *)
Definition M (A : Type) : Type := Store -> result A * Store.

Definition ret {A} (a : A) : M A := fun s => (Returned a, s).

Definition bind {A B} (m : M A) (f : A -> M B) : M B :=
  fun s =>
    match m s with
    | (Returned a, s') => f a s'
    | (Fatal e, s') => (Fatal e, s')
    end.

Notation "x <- m ;; k" := (bind m (fun x => k))
  (at level 100, m at next level, right associativity).
Notation "m ;;; k" := (bind m (fun _ => k))
  (at level 100, right associativity).

(** Reading the receiver. *)
Definition get_self : M masterKeyKMS := fun s => (Returned (self s), s).

Definition io_EOF : error := errors_New "EOF".
Definition io_ErrUnexpectedEOF : error := errors_New "unexpected EOF".

(** [io.ReadFull(rand.Reader, buf)] on a zeroed buffer of [n] bytes: the
    buffer after the call and the error. A source that runs dry leaves the
    rest of the buffer untouched. *)
Definition rand_ReadFull (n : nat) : M (list byte * option error) :=
  fun s =>
    let pool := rand_Reader s in
    if (n <=? length pool)%nat
    then (Returned (take n pool, None),
          {| self := self s; rand_Reader := drop n pool |})
    else (Returned (take n (pool ++ replicate n x00),
                    Some (if (length pool =? 0)%nat
                          then io_EOF else io_ErrUnexpectedEOF)),
          {| self := self s; rand_Reader := [] |}).

(** A call into a library that reads from [crypto/rand.Reader]: [f] takes
    what the source can still deliver to the result of the call and to what
    is left of the source. *)
Definition rand_call {A} (f : list byte -> A * list byte) : M A :=
  fun s =>
    let '(a, rest) := f (rand_Reader s) in
    (Returned a, {| self := self s; rand_Reader := rest |}).

(** Modelled from the spec: [logger.CriticalIf], whose source is not part of
    the files at hand. The spec makes it the fatal-failure collaborator: a
    non-nil error "must halt further progress of the operation"; a nil error
    is no condition at all. *)
Definition logger_CriticalIf (err : option error) : M unit :=
  fun s =>
    match err with
    | Some e => (Fatal e, s)
    | None => (Returned tt, s)
    end.

(** [func NewMasterKey(keyID string, key [32]byte) KMS]. *)
Definition NewMasterKey (keyID : string) (key : list byte) : masterKeyKMS :=
  {| keyID := keyID; masterKey := key |}.

(** [func (kms *masterKeyKMS) DefaultKeyID() string]. *)
Definition DefaultKeyID (kms : masterKeyKMS) : string := keyID kms.

(** [func (kms *masterKeyKMS) CreateKey(keyID string) error]. *)
Definition CreateKey (kms : masterKeyKMS) (keyID : string) : option error :=
  Some (errors_New
          "crypto: creating keys is not supported by a static master key").

(** [func (kms *masterKeyKMS) Info() (info KMSInfo)]. *)
Definition Info (kms : masterKeyKMS) : KMSInfo :=
  {| Endpoints := []; Name := EmptyString; AuthType := "master-key" |}.

(** [hash.Hash] as returned by [hmac.New]: the key and the bytes written so
    far. *)
Record hmac_state : Type :=
  { mac_key : list byte; mac_data : list byte }.

Definition hmac_New (key : list byte) : hmac_state :=
  {| mac_key := key; mac_data := [] |}.

Definition mac_Write (mac : hmac_state) (p : list byte) : hmac_state :=
  {| mac_key := mac_key mac; mac_data := mac_data mac ++ p |}.

Section Backend.

(** The libraries the backend builds on, which are not part of this
    package. *)

(** HMAC-SHA-256 of a message under a key ([crypto/hmac], [sha256-simd]). *)
Variable hmac_sha256 : list byte -> list byte -> list byte.

(** [sio.Encrypt(&buffer, bytes.NewReader(p), sio.Config{Key: k})] on an
    empty buffer. [Config.Rand] is not set, so the library reads its nonce
    from [crypto/rand.Reader]: given the key, the payload and what the
    source can still deliver, the bytes written to the buffer, the error,
    and what is left of the source. The returned count [n] is the number of
    bytes written. *)
Variable sio_Encrypt :
  list byte -> list byte -> list byte -> (list byte * option error) * list byte.

(** [sio.DecryptBuffer(dst[:0], src, sio.Config{Key: k})]: the bytes it
    appended to [dst] and the error. With a nil error these bytes are the
    returned slice [out]. *)
Variable sio_DecryptBuffer :
  list byte -> list byte -> list byte * option error.

(** [errOutOfEntropy], declared in another file of the package. *)
Variable errOutOfEntropy : error.

(** [mac.Sum(b)]: appends the MAC of what was written to [b]. *)
Definition mac_Sum (mac : hmac_state) (b : list byte) : list byte :=
  b ++ hmac_sha256 (mac_key mac) (mac_data mac).

(** [func (kms *masterKeyKMS) deriveKey(keyID string, context Context)
    (key [32]byte)]. [ord] is the order in which [AppendTo] ranges over the
    context. *)
Definition deriveKey (kms : masterKeyKMS) (keyID : string)
    (context : Context) (ord : list (string * string)) : list byte :=
  let key := zero32 in
  let context :=
    match context with
    | Context_nil => Context_map ∅
    | Context_map _ => context
    end in
  let mac := hmac_New (masterKey kms) in
  let mac := mac_Write mac (bytes_of_string keyID) in
  let mac := mac_Write mac (AppendTo context ord []) in
  let key := append_at0 key (mac_Sum mac []) in
  key.

(** [func (kms *masterKeyKMS) GenerateKey(keyID string, ctx Context)
    (key [32]byte, sealedKey []byte, err error)]. *)
Definition GenerateKey (keyID : string) (ctx : Context)
    (ord : list (string * string))
  : M (list byte * list byte * option error) :=
  r <- rand_ReadFull 32 ;;
  let '(key, err) := r in
  (if bool_decide (err ≠ None)
   then logger_CriticalIf (Some errOutOfEntropy) else ret tt) ;;;
  kms <- get_self ;;
  let derivedKey := deriveKey kms keyID ctx ord in
  e <- rand_call (sio_Encrypt derivedKey key) ;;
  let '(buffer, err) := e in
  let n := Z.of_nat (length buffer) in
  (if bool_decide (err ≠ None) || negb (n =? 64)
   then logger_CriticalIf
          (Some (errors_New "KMS: unable to encrypt data key"))
   else ret tt) ;;;
  let sealedKey := buffer in
  ret (key, sealedKey, None).

(** [func (kms *masterKeyKMS) UnsealKey(keyID string, sealedKey []byte,
    ctx Context) (key [32]byte, err error)]. The plaintext is appended to
    [key[:0]], so it lands in the array [key] when it fits. *)
Definition UnsealKey (kms : masterKeyKMS) (keyID : string)
    (sealedKey : list byte) (ctx : Context) (ord : list (string * string))
  : list byte * option error :=
  let key := zero32 in
  let derivedKey := deriveKey kms keyID ctx ord in
  let '(out, err) := sio_DecryptBuffer derivedKey sealedKey in
  let key := append_at0 key out in
  if bool_decide (err ≠ None) || negb (Z.of_nat (length out) =? 32)
  then (key, err)
  else (key, None).

(** A call of one of the five methods of the [KMS] interface, and what it
    returns. *)
Inductive Call : Type :=
  | CallDefaultKeyID
  | CallCreateKey (keyID : string)
  | CallGenerateKey (keyID : string) (ctx : Context)
      (ord : list (string * string))
  | CallUnsealKey (keyID : string) (sealedKey : list byte) (ctx : Context)
      (ord : list (string * string))
  | CallInfo.

Inductive Reply : Type :=
  | ReplyDefaultKeyID (id : string)
  | ReplyCreateKey (err : option error)
  | ReplyGenerateKey (key sealedKey : list byte) (err : option error)
  | ReplyUnsealKey (key : list byte) (err : option error)
  | ReplyInfo (info : KMSInfo).

(** One method call on the backend object of the store. *)
Definition call (c : Call) : M Reply :=
  match c with
  | CallDefaultKeyID =>
      kms <- get_self ;; ret (ReplyDefaultKeyID (DefaultKeyID kms))
  | CallCreateKey id =>
      kms <- get_self ;; ret (ReplyCreateKey (CreateKey kms id))
  | CallGenerateKey id ctx ord =>
      r <- GenerateKey id ctx ord ;;
      let '(key, sealedKey, err) := r in
      ret (ReplyGenerateKey key sealedKey err)
  | CallUnsealKey id sealedKey ctx ord =>
      kms <- get_self ;;
      let '(key, err) := UnsealKey kms id sealedKey ctx ord in
      ret (ReplyUnsealKey key err)
  | CallInfo =>
      kms <- get_self ;; ret (ReplyInfo (Info kms))
  end.

(** A sequence of calls; a fatal condition ends it. *)
Fixpoint calls (cs : list Call) : M (list Reply) :=
  match cs with
  | [] => ret []
  | c :: cs' =>
      r <- call c ;;
      rs <- calls cs' ;;
      ret (r :: rs)
  end.

End Backend.

(** ** HMAC-SHA-256

    The keyed hash of [crypto/hmac] over SHA-256 (FIPS 180-4, RFC 2104), on
    32-bit words kept in [Z]. [deriveKey] is stated over any keyed hash; this
    one instantiates it. *)

Module SHA256.

Definition byte_to_Z (b : byte) : Z := Z.of_N (Byte.to_N b).

Definition byte_of_Z (z : Z) : byte :=
  default x00 (Byte.of_N (Z.to_N (z mod 256))).

Definition add32 (a b : Z) : Z := (a + b) mod 2 ^ 32.

Definition rotr (n x : Z) : Z :=
  Z.lor (Z.shiftr x n) (Z.shiftl x (32 - n)) mod 2 ^ 32.

Definition not32 (x : Z) : Z := Z.lxor x 0xffffffff.

Definition Ch (x y z : Z) : Z :=
  Z.lxor (Z.land x y) (Z.land (not32 x) z).

Definition Maj (x y z : Z) : Z :=
  Z.lxor (Z.lxor (Z.land x y) (Z.land x z)) (Z.land y z).

Definition Sigma0 (x : Z) : Z :=
  Z.lxor (Z.lxor (rotr 2 x) (rotr 13 x)) (rotr 22 x).

Definition Sigma1 (x : Z) : Z :=
  Z.lxor (Z.lxor (rotr 6 x) (rotr 11 x)) (rotr 25 x).

Definition sigma0 (x : Z) : Z :=
  Z.lxor (Z.lxor (rotr 7 x) (rotr 18 x)) (Z.shiftr x 3).

Definition sigma1 (x : Z) : Z :=
  Z.lxor (Z.lxor (rotr 17 x) (rotr 19 x)) (Z.shiftr x 10).

(** The first primes, by trial division. *)
Definition is_prime (n : Z) : bool :=
  (1 <? n) && forallb (fun d => negb (n mod d =? 0)) (seqZ 2 (n - 2)).

Definition primes_below (n : Z) : list Z := filter is_prime (seqZ 2 (n - 2)).

(** The largest [r] below [2 ^ bits] with [r ^ 3 <= n]. *)
Fixpoint cube_root (bits : nat) (n r : Z) : Z :=
  match bits with
  | O => r
  | S bits' =>
      let r' := r + 2 ^ Z.of_nat bits' in
      cube_root bits' n (if r' ^ 3 <=? n then r' else r)
  end.

(** The first 32 bits of the fractional part of the cube root, and of the
    square root, of [p]. *)
Definition frac_cube_root (p : Z) : Z :=
  cube_root 36 (p * 2 ^ 96) 0 mod 2 ^ 32.

Definition frac_sqrt (p : Z) : Z := Z.sqrt (p * 2 ^ 64) mod 2 ^ 32.

(** The round constants: one for each of the first 64 primes. *)
Definition K : list Z :=
  Eval vm_compute in frac_cube_root <$> primes_below 312.

(** The eight working variables. *)
Definition state : Type := Z * Z * Z * Z * Z * Z * Z * Z.

(** The initial hash value, from the first eight primes. *)
Definition H0 : state :=
  Eval vm_compute in
    (frac_sqrt 2, frac_sqrt 3, frac_sqrt 5, frac_sqrt 7,
     frac_sqrt 11, frac_sqrt 13, frac_sqrt 17, frac_sqrt 19).

(** Big-endian words of a byte sequence, and back. *)
Fixpoint words_of_bytes (l : list byte) : list Z :=
  match l with
  | a :: b :: c :: d :: l' =>
      (byte_to_Z a * 2 ^ 24 + byte_to_Z b * 2 ^ 16
       + byte_to_Z c * 2 ^ 8 + byte_to_Z d) :: words_of_bytes l'
  | _ => []
  end.

Definition bytes_of_word (w : Z) : list byte :=
  [ byte_of_Z (Z.shiftr w 24); byte_of_Z (Z.shiftr w 16);
    byte_of_Z (Z.shiftr w 8); byte_of_Z w ].

(** The message schedule, newest word first: [rw] holds the words computed so
    far in reverse. *)
Fixpoint schedule (fuel : nat) (rw : list Z) : list Z :=
  match fuel with
  | O => rw
  | S fuel' =>
      let w :=
        add32 (add32 (sigma1 (nth 1 rw 0)) (nth 6 rw 0))
              (add32 (sigma0 (nth 14 rw 0)) (nth 15 rw 0)) in
      schedule fuel' (w :: rw)
  end.

Definition round (s : state) (kw : Z * Z) : state :=
  let '(a, b, c, d, e, f, g, h) := s in
  let t1 :=
    add32 (add32 (add32 h (Sigma1 e)) (Ch e f g)) (add32 kw.1 kw.2) in
  let t2 := add32 (Sigma0 a) (Maj a b c) in
  (add32 t1 t2, a, b, c, add32 d t1, e, f, g).

Definition compress (s : state) (block : list byte) : state :=
  let w := rev (schedule 48 (rev (words_of_bytes block))) in
  let '(a, b, c, d, e, f, g, h) := s in
  let '(a', b', c', d', e', f', g', h') := fold_left round (combine K w) s in
  (add32 a a', add32 b b', add32 c c', add32 d d',
   add32 e e', add32 f f', add32 g g', add32 h h').

Fixpoint compress_all (fuel : nat) (s : state) (l : list byte) : state :=
  match fuel with
  | O => s
  | S fuel' =>
      match l with
      | [] => s
      | _ => compress_all fuel' (compress s (take 64 l)) (drop 64 l)
      end
  end.

(** The message followed by the bit 1, zeros up to 56 modulo 64 and the bit
    length on eight bytes. *)
Definition pad (msg : list byte) : list byte :=
  let n := length msg in
  let zeros := ((119 - n mod 64) mod 64)%nat in
  let bits := Z.of_nat n * 8 in
  msg ++ [x80] ++ replicate zeros x00
      ++ bytes_of_word (Z.shiftr bits 32) ++ bytes_of_word bits.

Definition sum256 (msg : list byte) : list byte :=
  let p := pad msg in
  let '(a, b, c, d, e, f, g, h) := compress_all (length p) H0 p in
  bytes_of_word a ++ bytes_of_word b ++ bytes_of_word c ++ bytes_of_word d
    ++ bytes_of_word e ++ bytes_of_word f ++ bytes_of_word g
    ++ bytes_of_word h.

Definition xor_byte (c : Z) (b : byte) : byte :=
  byte_of_Z (Z.lxor (byte_to_Z b) c).

(** HMAC with a block size of 64 bytes. *)
Definition hmac (key msg : list byte) : list byte :=
  let key := if (64 <? length key)%nat then sum256 key else key in
  let key := key ++ replicate (64 - length key) x00 in
  let ipad := xor_byte 0x36 <$> key in
  let opad := xor_byte 0x5c <$> key in
  sum256 (opad ++ sum256 (ipad ++ msg)).

Definition hex_digit (n : Z) : ascii :=
  ascii_of_N (Z.to_N (if n <? 10 then 48 + n else 87 + n)).

(** Lower-case hexadecimal, as digests are printed. *)
Fixpoint hex (l : list byte) : string :=
  match l with
  | [] => EmptyString
  | b :: l' =>
      String (hex_digit (byte_to_Z b / 16))
             (String (hex_digit (byte_to_Z b mod 16)) (hex l'))
  end.

End SHA256.

(** ** A stand-in for the sealing library

    [sio] encrypts with an authenticated cipher whose wrong-key rejection is
    a computational guarantee. Where a statement assumes that contract, it is
    exercised on this stand-in, for which the contract holds outright: a
    32-byte header that names the key, followed by the payload. Like [sio]
    it refuses keys that are not 32 bytes long, adds 32 bytes to the
    payload, and reads the twelve bytes of a nonce from the random source
    when it seals, failing when the source cannot deliver them; it has no
    use for the nonce itself. *)

Module StandIn.

Definition errInvalidKeySize : error :=
  errors_New "sio: invalid key size".

Definition errTagMismatch : error :=
  errors_New "sio: authentication failed".

Definition Encrypt (key payload rnd : list byte)
  : (list byte * option error) * list byte :=
  if (length key =? 32)%nat
  then if (12 <=? length rnd)%nat
       then ((key ++ payload, None), drop 12 rnd)
       else (([], Some io_ErrUnexpectedEOF), [])
  else (([], Some errInvalidKeySize), rnd).

Definition DecryptBuffer (key src : list byte) : list byte * option error :=
  if (length key =? 32)%nat
  then if bool_decide (take 32 src = key)
       then (drop 32 src, None)
       else ([], Some errTagMismatch)
  else ([], Some errInvalidKeySize).

Definition errOutOfEntropy : error :=
  errors_New "Unable to read enough randomness from the system".

End StandIn.

(** ** Strings without the delimiters of the encoding *)

(** No double quote among the bytes of [s]. *)
Definition quote_free (s : string) : Prop :=
  dquote_byte ∉ bytes_of_string s.

(** No opening brace among the bytes of [s]. *)
Definition brace_free (s : string) : Prop :=
  lbrace ∉ bytes_of_string s.

(** No double quote in any key or value of the context. *)
Definition quote_free_context (c : Context) : Prop :=
  forall k v : string,
    entries c !! k = Some v -> quote_free k /\ quote_free v.

(** ** Values that hold delimiters

    "Note that neither keys nor values are escaped for JSON": a value may
    hold the bytes that otherwise separate members, or close the object. *)

(** The value [v1","k2":"v2]: [v1], then what separates the member of [k2]
    with value [v2] from the one before. *)
Definition value_with_member (v1 k2 v2 : string) : string :=
  v1 +:+ quote +:+ "," +:+ quote +:+ k2 +:+ quote +:+ ":" +:+ quote +:+ v2.

(** The value [v"}{"y":"w]: [v], then the end of an object and the start of
    the object that has the one member [y] with value [w]. *)
Definition value_with_object (v y w : string) : string :=
  v +:+ quote +:+ "}{" +:+ quote +:+ y +:+ quote +:+ ":" +:+ quote +:+ w.

(** The key ID [id{"x":"v"}]: [id], then the object with the one member
    [x] with value [v]. *)
Definition key_id_with_object (id x v : string) : string :=
  id +:+ "{" +:+ quote +:+ x +:+ quote +:+ ":" +:+ quote +:+ v +:+ quote
     +:+ "}".

(** ** What [io.Writer] asks of a writer

    "Write writes len(p) bytes from p to the underlying data stream. It
    returns the number of bytes written from p (0 <= n <= len(p)) and any
    error encountered that caused the write to stop early. Write must return
    a non-nil error if it returns n < len(p)." [written w] is what has gone
    through the writer [w] so far. *)
Class WriterContract (W : Type) `{Writer W} : Type :=
  { written : W -> list byte;
    Write_contract :
      forall (w : W) (p : list byte),
        exists k : nat,
          (k <= length p)%nat
          /\ (Write w p).2.1 = Z.of_nat k
          /\ written (Write w p).1 = written w ++ take k p
          /\ ((Write w p).2.2 = None -> k = length p) }.

(** ** Audit entries (package audit, entry.go) *)

Module Audit.

(** [strings.Join(elems, sep)]. *)
Fixpoint strings_Join (elems : list string) (sep : string) : string :=
  match elems with
  | [] => EmptyString
  | [a] => a
  | a :: rest => a +:+ sep +:+ strings_Join rest sep
  end.

(** [strings.Trim(s, cutset)] for a cutset of one ASCII character [c], as
    the library computes it: the trailing occurrences of [c] are cut, then
    the leading ones. *)
Fixpoint trimLeftByte (s : string) (c : ascii) : string :=
  match s with
  | EmptyString => EmptyString
  | String a s' => if Ascii.eqb a c then trimLeftByte s' c else s
  end.

Fixpoint trimRightByte (s : string) (c : ascii) : string :=
  match s with
  | EmptyString => EmptyString
  | String a s' =>
      match trimRightByte s' c with
      | EmptyString => if Ascii.eqb a c then EmptyString
                       else String a EmptyString
      | t => String a t
      end
  end.

Definition strings_Trim (s : string) (c : ascii) : string :=
  trimLeftByte (trimRightByte s c) c.

(** [http.Header] and [url.Values]: [map[string][]string]. *)
Abbreviation Values := (gmap string (list string)).

(** What [ToEntry] reads of an [*http.Request]: the parsed query
    [r.URL.Query()], the header, and the rest of the request, which only
    [handlers.GetSourceIP] looks at. *)
Record Request (Rest : Type) : Type :=
  { URL_Query : Values; Header : Values; rest : Rest }.

Arguments URL_Query {Rest} _.
Arguments Header {Rest} _.
Arguments rest {Rest} _.

(** [const Version = "1"]. *)
Definition Version : string := "1".

(** The struct of the field [API]. *)
Record EntryAPI : Type :=
  { API_Name : string;
    API_Bucket : string;
    API_Object : string;
    API_Status : string;
    API_StatusCode : Z;
    API_TimeToFirstByte : string;
    API_TimeToResponse : string }.

(** Its zero value. *)
Definition EntryAPI_zero : EntryAPI :=
  {| API_Name := EmptyString; API_Bucket := EmptyString;
     API_Object := EmptyString; API_Status := EmptyString;
     API_StatusCode := 0; API_TimeToFirstByte := EmptyString;
     API_TimeToResponse := EmptyString |}.

(** [type Entry struct]. [Claims] stands for [map[string]interface{}]. *)
Record Entry (Claims : Type) : Type :=
  { Entry_Version : string;
    DeploymentID : string;
    Time : string;
    API : EntryAPI;
    RemoteHost : string;
    RequestID : string;
    UserAgent : string;
    ReqClaims : Claims;
    ReqQuery : gmap string string;
    ReqHeader : gmap string string;
    RespHeader : gmap string string }.

Arguments Entry_Version {Claims} _.
Arguments DeploymentID {Claims} _.
Arguments Time {Claims} _.
Arguments API {Claims} _.
Arguments RemoteHost {Claims} _.
Arguments RequestID {Claims} _.
Arguments UserAgent {Claims} _.
Arguments ReqClaims {Claims} _.
Arguments ReqQuery {Claims} _.
Arguments ReqHeader {Claims} _.
Arguments RespHeader {Claims} _.

(** [for k, v := range vs] in the order [ord]: a range order of [vs]. *)
Definition range_of_values (vs : Values) (ord : list (string * list string))
  : Prop :=
  ord ≡ₚ map_to_list vs.

(** The loop [for k, v := range vs { m[k] = strings.Join(v, ",") }] on a
    fresh map [m], ranging in the order [ord]. *)
Definition join_all (ord : list (string * list string)) : gmap string string :=
  foldl (fun m kv => <[kv.1 := strings_Join kv.2 ","]> m) ∅ ord.

Section ToEntry.

(** What the function takes from other packages. *)

(** [xhttp.ETag] and [xhttp.AmzRequestID], the names of two headers. *)
Variable xhttp_ETag : string.
Variable xhttp_AmzRequestID : string.

(** [textproto.CanonicalMIMEHeaderKey], which [Header.Get] applies to the
    name it looks up. *)
Variable CanonicalMIMEHeaderKey : string -> string.

(** [handlers.GetSourceIP(r)]. *)
Variable Rest : Type.
Variable handlers_GetSourceIP : Request Rest -> string.

Variable Claims : Type.

(** [h.Get(key)]: the first value under the canonical form of [key], the
    empty string when there is none. *)
Definition Header_Get (h : Values) (key : string) : string :=
  match h !! CanonicalMIMEHeaderKey key with
  | Some (v :: _) => v
  | _ => EmptyString
  end.

(** [r.UserAgent()]. *)
Definition Request_UserAgent (r : Request Rest) : string :=
  Header_Get (Header r) "User-Agent".

(** [func ToEntry(w http.ResponseWriter, r *http.Request, reqClaims
    map[string]interface{}, deploymentID string) Entry]. [wh] is
    [w.Header()], [now] is [time.Now().UTC().Format(time.RFC3339Nano)], and
    [ordq], [ordh] and [ordw] are the orders of the three range loops. *)
Definition ToEntry (wh : Values) (r : Request Rest) (reqClaims : Claims)
    (deploymentID : string) (now : string)
    (ordq ordh ordw : list (string * list string)) : Entry Claims :=
  let reqQuery := join_all ordq in
  let reqHeader := join_all ordh in
  let respHeader := join_all ordw in
  let respHeader :=
    <[xhttp_ETag :=
        strings_Trim (default EmptyString (respHeader !! xhttp_ETag)) dquote]>
      respHeader in
  {| Entry_Version := Version;
     DeploymentID := deploymentID;
     Time := now;
     API := EntryAPI_zero;
     RemoteHost := handlers_GetSourceIP r;
     RequestID := Header_Get wh xhttp_AmzRequestID;
     UserAgent := Request_UserAgent r;
     ReqClaims := reqClaims;
     ReqQuery := reqQuery;
     ReqHeader := reqHeader;
     RespHeader := respHeader |}.

End ToEntry.

End Audit.

(** ** Example values *)

Module Examples.

(** The context [{"a":"1","b":"2"}] of the specification, built by inserting
    [a] first and by inserting [b] first. *)
Definition ctx_ab : Context :=
  Context_map (<["b" := "2"]> (<["a" := "1"]> ∅)).

Definition ctx_ba : Context :=
  Context_map (<["a" := "1"]> (<["b" := "2"]> ∅)).

(** A context of one entry. *)
Definition ctx_x : Context := Context_map {["x" := "1"]}.

(** The scenario of the specification: a master key of 32 zero bytes under
    the key ID [default], and the contexts of two objects of one bucket. *)
Definition kms0 : masterKeyKMS := NewMasterKey "default" zero32.

Definition ctx_o1 : Context :=
  Context_map (<["object" := "o1"]> (<["bucket" := "b1"]> ∅)).

Definition ord_o1 : list (string * string) :=
  [("object", "o1"); ("bucket", "b1")].

Definition ctx_o2 : Context :=
  Context_map (<["bucket" := "b1"]> (<["object" := "o2"]> ∅)).

Definition ord_o2 : list (string * string) :=
  [("bucket", "b1"); ("object", "o2")].

(** A random source that still holds sixty-four bytes. *)
Definition pool64 : list byte := SHA256.byte_of_Z <$> seqZ 1 64.

Definition store0 : Store := {| self := kms0; rand_Reader := pool64 |}.

(** The backend over HMAC-SHA-256 and the stand-in sealing library. *)
Abbreviation deriveKey0 := (deriveKey SHA256.hmac).

Abbreviation GenerateKey0 :=
  (GenerateKey SHA256.hmac StandIn.Encrypt StandIn.errOutOfEntropy).

Abbreviation UnsealKey0 := (UnsealKey SHA256.hmac StandIn.DecryptBuffer).

(** A payload of sixteen bytes sealed under the key derived for [default]
    and the first object. *)
Definition sealed16 : list byte :=
  (StandIn.Encrypt (deriveKey0 kms0 "default" ctx_o1 ord_o1)
                   (replicate 16 xff) pool64).1.1.

(** The store after a key and a nonce, forty-four bytes, were drawn from
    [store0]. *)
Definition store1 : Store :=
  {| self := kms0; rand_Reader := drop 12 (drop 32 pool64) |}.

(** The blob that seals the first thirty-two bytes of [pool64] for the first
    object. *)
Definition sealed_o1 : list byte :=
  deriveKey0 kms0 "default" ctx_o1 ord_o1 ++ take 32 pool64.

(** The header of a response with a quoted entity tag, an order of its
    range, and a request with a query and a header. *)
Definition wh0 : Audit.Values :=
  <["Content-Type" := ["text/plain"]]>
    {["ETag" := [String dquote ("5d41402a" +:+ quote)]]}.

Definition ord_wh0 : list (string * list string) :=
  [("ETag", [String dquote ("5d41402a" +:+ quote)]);
   ("Content-Type", ["text/plain"])].

Definition r0 : Audit.Request unit :=
  {| Audit.URL_Query := {["prefix" := ["a"; "b"]]};
     Audit.Header := {["User-Agent" := ["mc"]]};
     Audit.rest := tt |}.

(** [ToEntry] with the header names of package [http], header names taken
    as they are, and a fixed source address. *)
Abbreviation ToEntry0 :=
  (Audit.ToEntry "ETag" "x-amz-request-id" (fun key : string => key) unit
     (fun _ : Audit.Request unit => "127.0.0.1") unit).

End Examples.

Import Examples.

(** * Properties *)

(** ** Strings, bytes and sorting *)

Lemma bytes_of_string_app (s t : string) :
  bytes_of_string (s +:+ t) = bytes_of_string s ++ bytes_of_string t.
Proof.
  unfold bytes_of_string, list_byte_of_string, String.app.
  induction s as [|a s IH]; simpl; [reflexivity|].
  now rewrite IH.
Qed.

Lemma substring_prefix (s t : string) :
  String.substring 0 (String.length s) (s +:+ t) = s.
Proof.
  unfold String.app.
  induction s as [|a s IH]; simpl.
  - now destruct t.
  - now rewrite IH.
Qed.

Lemma length_app_one (s : string) (a : ascii) :
  String.length (s +:+ String a EmptyString) = S (String.length s).
Proof.
  unfold String.app.
  induction s as [|b s IH]; simpl; [reflexivity|].
  now rewrite IH.
Qed.

Lemma drop_last_snoc (s : string) (a : ascii) :
  drop_last (s +:+ String a EmptyString) = s.
Proof.
  unfold drop_last. rewrite length_app_one.
  replace (S (String.length s) - 1)%nat with (String.length s) by lia.
  apply substring_prefix.
Qed.

Lemma app_assoc_string (s t u : string) : (s +:+ t) +:+ u = s +:+ (t +:+ u).
Proof.
  unfold String.app.
  induction s as [|a s IH]; simpl; [reflexivity|].
  now rewrite IH.
Qed.

(** Sorting forgets the order in which the keys were collected. *)
Lemma sort_Strings_perm (l1 l2 : list string) :
  l1 ≡ₚ l2 -> sort_Strings l1 = sort_Strings l2.
Proof.
  intros Hp. unfold sort_Strings.
  apply (Sorted_unique String.le).
  - apply Sorted_merge_sort; apply _.
  - apply Sorted_merge_sort; apply _.
  - now rewrite !merge_sort_Permutation.
Qed.

Lemma sort_Strings_length (l : list string) :
  length (sort_Strings l) = length l.
Proof.
  unfold sort_Strings. apply Permutation_length, merge_sort_Permutation.
Qed.

Lemma sort_Strings_singleton (k : string) : sort_Strings [k] = [k].
Proof. reflexivity. Qed.

(** ** 64-bit counters *)

Lemma wrap64_add_l (x y : Z) : wrap64 (wrap64 x + y) = wrap64 (x + y).
Proof.
  unfold wrap64. f_equal.
  replace ((x + 2 ^ 63) mod 2 ^ 64 - 2 ^ 63 + y + 2 ^ 63)
    with ((x + 2 ^ 63) mod 2 ^ 64 + y) by lia.
  rewrite Zplus_mod_idemp_l. f_equal. lia.
Qed.

Lemma add64_wrap (x y : Z) : add64 (wrap64 x) y = wrap64 (x + y).
Proof. unfold add64. apply wrap64_add_l. Qed.

(** ** The two encoders against the canonical form *)

Lemma index_ext (c1 c2 : Context) (k : string) :
  entries c1 = entries c2 -> index c1 k = index c2 k.
Proof. unfold index. now intros ->. Qed.

Lemma member_ext (c1 c2 : Context) (k : string) :
  entries c1 = entries c2 -> member c1 k = member c2 k.
Proof. intros He. unfold member. now rewrite (index_ext c1 c2 k He). Qed.

Lemma members_cons (c : Context) (k : string) (ks : list string) :
  members c (k :: ks)
  = member c k ++ (if bool_decide (ks = []) then [] else [comma])
      ++ members c ks.
Proof.
  destruct ks as [|k' ks]; simpl.
  - now rewrite app_nil_r.
  - reflexivity.
Qed.

Lemma members_ext (c1 c2 : Context) (ks : list string) :
  entries c1 = entries c2 -> members c1 ks = members c2 ks.
Proof.
  intros He. induction ks as [|k ks IH]; [reflexivity|].
  rewrite !members_cons, IH. now rewrite (member_ext c1 c2 k He).
Qed.

Lemma canonical_ext (c1 c2 : Context) :
  entries c1 = entries c2 -> canonical c1 = canonical c2.
Proof.
  intros He. unfold canonical. rewrite (members_ext c1 c2 _ He).
  now rewrite He.
Qed.

(** What [fmt.Sprintf] builds for one key, as bytes. *)
(** Flattens a byte sequence built from string pieces. *)
Ltac bytes_norm :=
  rewrite ?bytes_of_string_app;
  change (bytes_of_string quote) with [dquote_byte];
  change (bytes_of_string ":") with [":"%byte];
  change (bytes_of_string ",") with [comma];
  change (bytes_of_string "{") with [lbrace];
  change (bytes_of_string "}") with [rbrace];
  rewrite <- ?app_assoc; simpl.

(** What [fmt.Sprintf] builds for one key, as bytes. *)
Lemma sprintf_member (c : Context) (k : string) :
  bytes_of_string
    (quote +:+ k +:+ quote +:+ ":" +:+ quote +:+ index c k +:+ quote)
  = member c k.
Proof. unfold member. bytes_norm. reflexivity. Qed.

Lemma sprintf_snoc (c : Context) (k : string) :
  quote +:+ k +:+ quote +:+ ":" +:+ quote +:+ index c k +:+ quote +:+ ","
  = (quote +:+ k +:+ quote +:+ ":" +:+ quote +:+ index c k +:+ quote)
      +:+ ",".
Proof. now rewrite !app_assoc_string. Qed.

(** The loop of the general path appends the members of the remaining keys. *)
Lemma AppendTo_loop_members (c : Context) (total : nat) (ks : list string) :
  forall (i : nat) (out : Buffer),
    (i + length ks = total)%nat ->
    AppendTo_loop c total i ks out = out ++ members c ks.
Proof.
  induction ks as [|k ks IH]; intros i out Hlen.
  - simpl. now rewrite app_nil_r.
  - rewrite members_cons. cbn [AppendTo_loop].
    cbn [length] in Hlen.
    rewrite IH by lia.
    unfold member.
    destruct ks as [|k' ks].
    + rewrite bool_decide_eq_true_2 by reflexivity.
      cbn [length] in Hlen.
      replace (Z.of_nat i <? Z.of_nat total - 1) with false
        by (symmetry; apply Z.ltb_ge; lia).
      bytes_norm. rewrite ?app_nil_r. reflexivity.
    + rewrite bool_decide_eq_false_2 by discriminate.
      cbn [length] in Hlen.
      replace (Z.of_nat i <? Z.of_nat total - 1) with true
        by (symmetry; apply Z.ltb_lt; lia).
      bytes_norm. reflexivity.
Qed.

Lemma AppendTo_sorted_canonical (c : Context) (ord : list (string * string))
    (out : Buffer) :
  range_of c ord -> AppendTo_sorted c ord out = out ++ canonical c.
Proof.
  intros Hr. unfold AppendTo_sorted, canonical.
  rewrite AppendTo_loop_members by (simpl; lia).
  rewrite (sort_Strings_perm (ord.*1) ((map_to_list (entries c)).*1))
    by (now rewrite Hr).
  now rewrite <- !app_assoc.
Qed.

(** A range over a map of length one. *)
Lemma range_of_single (c : Context) (ord : list (string * string)) :
  range_of c ord -> len c = 1%nat ->
  exists k v, ord = [(k, v)] /\ map_to_list (entries c) = [(k, v)]
              /\ index c k = v.
Proof.
  unfold range_of, len. intros Hr Hlen.
  rewrite <- length_map_to_list in Hlen.
  destruct (map_to_list (entries c)) as [|[k v] [|? ?]] eqn:Hl;
    simpl in Hlen; try lia.
  exists k, v. split; [now apply Permutation_singleton_r|].
  split; [reflexivity|].
  unfold index.
  assert ((k, v) ∈ map_to_list (entries c)) as Hin
    by (rewrite Hl; apply list_elem_of_here).
  apply elem_of_map_to_list in Hin. now rewrite Hin.
Qed.

Lemma AppendTo_single_canonical (c : Context) (ord : list (string * string))
    (out : Buffer) :
  range_of c ord -> len c = 1%nat ->
  AppendTo_single ord out = out ++ canonical c.
Proof.
  intros Hr Hlen.
  destruct (range_of_single c ord Hr Hlen) as (k & v & -> & Hl & Hv).
  unfold canonical. rewrite Hl.
  change (sort_Strings ([(k, v)].*1)) with [k].
  unfold AppendTo_single. cbn [foldl fst snd members].
  unfold member. rewrite Hv.
  bytes_norm. reflexivity.
Qed.

Lemma canonical_empty (c : Context) :
  len c = 0%nat -> canonical c = [lbrace; rbrace].
Proof.
  unfold len. intros Hlen. apply map_size_empty_inv in Hlen.
  unfold canonical. rewrite Hlen, map_to_list_empty. reflexivity.
Qed.

(** [AppendTo] appends the canonical form, whatever the range order. *)
Lemma AppendTo_canonical (c : Context) (ord : list (string * string))
    (dst : list byte) :
  range_of c ord -> AppendTo c ord dst = dst ++ canonical c.
Proof.
  intros Hr. unfold AppendTo.
  destruct (len c =? 0)%nat eqn:H0.
  - apply Nat.eqb_eq in H0. now rewrite canonical_empty.
  - destruct (len c =? 1)%nat eqn:H1.
    + apply Nat.eqb_eq in H1. now apply AppendTo_single_canonical.
    + now apply AppendTo_sorted_canonical.
Qed.

(** [WriteTo] reads the context only through its entries, and the range
    order only through the set of keys. *)
Lemma WriteTo_loop_ext {W} `{Writer W} (c1 c2 : Context) (total : nat)
    (ks : list string) :
  entries c1 = entries c2 ->
  forall (i : nat) (w : W) (n : Z),
    WriteTo_loop c1 total i ks w n = WriteTo_loop c2 total i ks w n.
Proof.
  intros He. induction ks as [|k ks IH]; intros i w n; [reflexivity|].
  cbn [WriteTo_loop]. rewrite (index_ext c1 c2 k He).
  destruct (io_WriteString w _) as [w' [nn [e|]]]; [reflexivity|].
  apply IH.
Qed.

Lemma WriteTo_ext {W} `{Writer W} (c1 c2 : Context)
    (ord1 ord2 : list (string * string)) (w : W) :
  entries c1 = entries c2 -> ord1.*1 ≡ₚ ord2.*1 ->
  WriteTo c1 ord1 w = WriteTo c2 ord2 w.
Proof.
  intros He Hp. unfold WriteTo.
  rewrite (sort_Strings_perm _ _ Hp).
  destruct (io_WriteString w "{") as [w' [nn [e|]]]; [reflexivity|].
  now rewrite (WriteTo_loop_ext c1 c2 _ _ He).
Qed.

(** On a [bytes.Buffer] the loop of [WriteTo] runs through and writes the
    members of the remaining keys. *)
Lemma WriteTo_loop_Buffer (c : Context) (total : nat) (ks : list string) :
  forall (i : nat) (w : Buffer) (x : Z),
    (i + length ks = total)%nat ->
    WriteTo_loop c total i ks w (wrap64 x)
    = inl (w ++ members c ks,
           wrap64 (x + Z.of_nat (length (members c ks)))).
Proof.
  induction ks as [|k ks IH]; intros i w x Hlen.
  - simpl. now rewrite app_nil_r, Z.add_0_r.
  - rewrite members_cons. cbn [WriteTo_loop]. cbn [length] in Hlen.
    rewrite sprintf_snoc.
    destruct ks as [|k' ks].
    + rewrite bool_decide_eq_true_2 by reflexivity.
      cbn [length] in Hlen.
      replace (Z.of_nat i =? Z.of_nat total - 1) with true
        by (symmetry; apply Z.eqb_eq; lia).
      change ("," : string) with (String ","%char EmptyString).
      rewrite drop_last_snoc.
      unfold io_WriteString, Write, Buffer_Writer.
      rewrite sprintf_member, add64_wrap.
      cbn [WriteTo_loop members]. now rewrite !app_nil_r.
    + rewrite bool_decide_eq_false_2 by discriminate.
      cbn [length] in Hlen.
      replace (Z.of_nat i =? Z.of_nat total - 1) with false
        by (symmetry; apply Z.eqb_neq; lia).
      unfold io_WriteString, Write, Buffer_Writer.
      rewrite bytes_of_string_app, sprintf_member, add64_wrap.
      change (bytes_of_string ",") with [comma].
      rewrite IH by (cbn [length]; lia).
      rewrite <- !app_assoc. do 2 f_equal.
      rewrite !length_app. f_equal. cbn [length]. lia.
Qed.

Lemma wrap64_0 : wrap64 0 = 0.
Proof. reflexivity. Qed.

(** [WriteTo] on a [bytes.Buffer] writes the canonical form and reports its
    length. *)
Lemma WriteTo_canonical (c : Context) (ord : list (string * string))
    (buf : Buffer) :
  range_of c ord ->
  WriteTo c ord buf
  = (buf ++ canonical c, (wrap64 (Z.of_nat (length (canonical c))), None)).
Proof.
  intros Hr. unfold WriteTo.
  rewrite (sort_Strings_perm (ord.*1) ((map_to_list (entries c)).*1))
    by (now rewrite Hr).
  unfold io_WriteString, Write, Buffer_Writer.
  change (bytes_of_string "{") with [lbrace].
  change (bytes_of_string "}") with [rbrace].
  change (add64 0 (Z.of_nat (length [lbrace]))) with (wrap64 1).
  rewrite WriteTo_loop_Buffer by (simpl; lia).
  rewrite add64_wrap. unfold canonical.
  rewrite <- !app_assoc. do 2 f_equal. f_equal.
  cbn [app length]. rewrite length_app. cbn [length]. lia.
Qed.

(** ** Canonical determinism *)

Lemma range_of_ctx_ab : range_of ctx_ab [("a", "1"); ("b", "2")].
Proof. unfold range_of. vm_compute map_to_list. reflexivity. Defined.

Lemma range_of_ctx_ba : range_of ctx_ba [("b", "2"); ("a", "1")].
Proof. unfold range_of. vm_compute map_to_list. apply perm_swap. Defined.

(** C3. Two contexts that hold the same key/value pairs have the same
    canonical encoding, through [WriteTo] on any writer and through
    [AppendTo] on any prefix, whichever way the maps were built and in
    whichever order each call ranges over its map. *)
Theorem canonical_determinism {W} `{Writer W} (c1 c2 : Context)
    (ord1 ord2 : list (string * string)) (w : W) (dst : list byte) :
  (forall k : string, entries c1 !! k = entries c2 !! k) ->
  range_of c1 ord1 -> range_of c2 ord2 ->
  WriteTo c1 ord1 w = WriteTo c2 ord2 w
  /\ AppendTo c1 ord1 dst = AppendTo c2 ord2 dst.
Proof.
  intros Hsame Hr1 Hr2.
  assert (entries c1 = entries c2) as He by (apply map_eq, Hsame).
  split.
  - apply WriteTo_ext; [exact He|].
    unfold range_of in Hr1, Hr2. now rewrite Hr1, Hr2, He.
  - rewrite !AppendTo_canonical by assumption.
    now rewrite (canonical_ext c1 c2 He).
Qed.

Lemma canonical_determinism_witness :
  (forall k : string, entries ctx_ab !! k = entries ctx_ba !! k)
  /\ range_of ctx_ab [("a", "1"); ("b", "2")]
  /\ range_of ctx_ba [("b", "2"); ("a", "1")]
  /\ WriteTo ctx_ab [("a", "1"); ("b", "2")] ([] : Buffer)
     = WriteTo ctx_ba [("b", "2"); ("a", "1")] ([] : Buffer)
  /\ AppendTo ctx_ab [("a", "1"); ("b", "2")] []
     = AppendTo ctx_ba [("b", "2"); ("a", "1")] [].
Proof.
  assert (forall k : string, entries ctx_ab !! k = entries ctx_ba !! k)
    as Hsame by (intros k; reflexivity).
  split; [exact Hsame|].
  split; [exact range_of_ctx_ab|].
  split; [exact range_of_ctx_ba|].
  exact (canonical_determinism ctx_ab ctx_ba _ _ ([] : Buffer) []
           Hsame range_of_ctx_ab range_of_ctx_ba).
Defined.

(** ** Stream form and buffer form *)

(** C4. On a writer that never fails, [WriteTo] writes exactly the bytes that
    [AppendTo] appends after its prefix, namely the canonical form of the
    context; and on a context of one entry the path of [AppendTo] that skips
    sorting gives what the general, sorting path gives. *)
Theorem stream_and_buffer_forms_agree (c : Context)
    (ord1 ord2 : list (string * string)) (buf : Buffer) (dst : list byte) :
  range_of c ord1 -> range_of c ord2 ->
  WriteTo c ord1 buf
  = (buf ++ canonical c, (wrap64 (Z.of_nat (length (canonical c))), None))
  /\ AppendTo c ord2 dst = dst ++ canonical c
  /\ (len c = 1%nat ->
      AppendTo_single ord2 dst = AppendTo_sorted c ord2 dst).
Proof.
  intros Hr1 Hr2. split; [now apply WriteTo_canonical|].
  split; [now apply AppendTo_canonical|].
  intros Hlen.
  rewrite (AppendTo_single_canonical c) by assumption.
  now rewrite AppendTo_sorted_canonical.
Qed.

Lemma range_of_ctx_x : range_of ctx_x [("x", "1")].
Proof. unfold range_of. vm_compute map_to_list. reflexivity. Defined.

Lemma stream_and_buffer_forms_agree_witness :
  range_of ctx_x [("x", "1")]
  /\ len ctx_x = 1%nat
  /\ (WriteTo ctx_x [("x", "1")] ([] : Buffer)).1
     = bytes_of_string ("{" +:+ quote +:+ "x" +:+ quote +:+ ":" +:+ quote
                            +:+ "1" +:+ quote +:+ "}")
  /\ AppendTo ctx_x [("x", "1")] [] = canonical ctx_x
  /\ AppendTo_single [("x", "1")] [] = AppendTo_sorted ctx_x [("x", "1")] [].
Proof.
  pose proof (stream_and_buffer_forms_agree ctx_x _ _ ([] : Buffer) []
                range_of_ctx_x range_of_ctx_x) as (Hw & Ha & Hs).
  split; [exact range_of_ctx_x|].
  split; [reflexivity|].
  split; [rewrite Hw; reflexivity|].
  split; [exact Ha|].
  apply Hs. reflexivity.
Defined.

(** On a writer that runs full, [WriteTo] stops at the first short write and
    returns the bytes counted so far with the error of the writer. *)
Example WriteTo_short_write :
  WriteTo ctx_ab [("a", "1"); ("b", "2")] {| lw_data := []; lw_room := 5 |}
  = ({| lw_data := bytes_of_string ("{" +:+ quote +:+ "a" +:+ quote +:+ ":");
        lw_room := 0 |},
     (5, Some io_ErrShortWrite)).
Proof. vm_compute. reflexivity. Qed.

(** ** The keyed hash and the stand-in sealing library *)

Lemma sum256_length (msg : list byte) :
  length (SHA256.sum256 msg) = 32%nat.
Proof.
  unfold SHA256.sum256.
  destruct (SHA256.compress_all _ _ _) as [[[[[[[a b] c] d] e] f] g] h].
  reflexivity.
Qed.

Lemma hmac_length (key msg : list byte) :
  length (SHA256.hmac key msg) = 32%nat.
Proof. unfold SHA256.hmac. apply sum256_length. Qed.

Example K_ends :
  length SHA256.K = 64%nat
  /\ head SHA256.K = Some 0x428a2f98 /\ last SHA256.K = Some 0xc67178f2.
Proof. vm_compute. repeat split. Qed.

(** RFC 4231, test case 2. *)
Example hmac_rfc4231_2 :
  SHA256.hex (SHA256.hmac (bytes_of_string "Jefe")
                (bytes_of_string "what do ya want for nothing?"))
  = "5bdcc146bf60754e6a042426089575c75a003f089d2739839dec58b964ec3843".
Proof. vm_compute. reflexivity. Qed.

Example sum256_abc :
  SHA256.hex (SHA256.sum256 (bytes_of_string "abc"))
  = "ba7816bf8f01cfea414140de5dae2223b00361a396177a9cb410ff61f20015ad".
Proof. vm_compute. reflexivity. Qed.

(** From here on digests are computed as a whole or not at all. *)
#[global] Opaque SHA256.sum256.

Lemma StandIn_Encrypt_32 (k p rnd : list byte) :
  length k = 32%nat -> (12 <= length rnd)%nat ->
  StandIn.Encrypt k p rnd = ((k ++ p, None), drop 12 rnd).
Proof.
  intros Hk Hrnd. unfold StandIn.Encrypt. rewrite Hk.
  apply Nat.leb_le in Hrnd. now rewrite Hrnd.
Qed.

(** The stand-in opens what it sealed. *)
Lemma StandIn_round_trip (k p rnd c rnd' : list byte) :
  StandIn.Encrypt k p rnd = ((c, None), rnd') ->
  StandIn.DecryptBuffer k c = (p, None).
Proof.
  unfold StandIn.Encrypt, StandIn.DecryptBuffer.
  destruct (length k =? 32)%nat eqn:Hk; [|discriminate].
  destruct (12 <=? length rnd)%nat; [|discriminate].
  apply Nat.eqb_eq in Hk. intros [= <- _].
  rewrite (take_app_length' k p 32) by (symmetry; exact Hk).
  rewrite bool_decide_eq_true_2 by reflexivity.
  now rewrite (drop_app_length' k p 32) by (symmetry; exact Hk).
Qed.

(** The stand-in rejects any other key. *)
Lemma StandIn_wrong_key (k k' p rnd c rnd' : list byte) :
  k <> k' -> StandIn.Encrypt k p rnd = ((c, None), rnd') ->
  (StandIn.DecryptBuffer k' c).2 <> None.
Proof.
  unfold StandIn.Encrypt, StandIn.DecryptBuffer. intros Hne.
  destruct (length k =? 32)%nat eqn:Hk; [|discriminate].
  destruct (12 <=? length rnd)%nat; [|discriminate].
  apply Nat.eqb_eq in Hk. intros [= <- _].
  destruct (length k' =? 32)%nat; [|discriminate].
  rewrite (take_app_length' k p 32) by (symmetry; exact Hk).
  rewrite bool_decide_eq_false_2 by exact Hne. discriminate.
Qed.

(** ** Key derivation *)

Lemma append_at0_length (arr data : list byte) :
  length (append_at0 arr data) = length arr.
Proof.
  unfold append_at0.
  destruct (length data <=? length arr)%nat eqn:Hle; [|reflexivity].
  apply Nat.leb_le in Hle. rewrite length_app, length_drop. lia.
Qed.

Lemma append_at0_full (data : list byte) :
  length data = 32%nat -> append_at0 zero32 data = data.
Proof.
  intros Hlen. unfold append_at0. rewrite Hlen.
  change (length zero32) with 32%nat. simpl.
  apply app_nil_r.
Qed.

Section BackendProperties.

Variable hmac_sha256 : list byte -> list byte -> list byte.
Variable sio_Encrypt :
  list byte -> list byte -> list byte -> (list byte * option error) * list byte.
Variable sio_DecryptBuffer :
  list byte -> list byte -> list byte * option error.
Variable errOutOfEntropy : error.

Local Abbreviation deriveKey := (deriveKey hmac_sha256).
Local Abbreviation GenerateKey :=
  (GenerateKey hmac_sha256 sio_Encrypt errOutOfEntropy).
Local Abbreviation UnsealKey := (UnsealKey hmac_sha256 sio_DecryptBuffer).
Local Abbreviation call :=
  (call hmac_sha256 sio_Encrypt sio_DecryptBuffer errOutOfEntropy).
Local Abbreviation calls :=
  (calls hmac_sha256 sio_Encrypt sio_DecryptBuffer errOutOfEntropy).

Lemma deriveKey_length (kms : masterKeyKMS) (id : string) (ctx : Context)
    (ord : list (string * string)) :
  length (deriveKey kms id ctx ord) = 32%nat.
Proof. unfold deriveKey. now rewrite append_at0_length. Qed.

(** The message that is authenticated: the key ID, then the canonical form
    of the context. *)
Lemma deriveKey_message (kms : masterKeyKMS) (id : string) (ctx : Context)
    (ord : list (string * string)) :
  range_of ctx ord ->
  deriveKey kms id ctx ord
  = append_at0 zero32
      (hmac_sha256 (masterKey kms) (bytes_of_string id ++ canonical ctx)).
Proof.
  intros Hr. unfold deriveKey, mac_Sum, mac_Write, hmac_New. simpl.
  destruct ctx as [|m].
  - rewrite (AppendTo_canonical (Context_map ∅) ord []) by exact Hr.
    reflexivity.
  - now rewrite AppendTo_canonical.
Qed.

(** The derived key does not depend on the order of the range. *)
Lemma deriveKey_order (kms : masterKeyKMS) (id : string) (ctx : Context)
    (ord1 ord2 : list (string * string)) :
  range_of ctx ord1 -> range_of ctx ord2 ->
  deriveKey kms id ctx ord1 = deriveKey kms id ctx ord2.
Proof. intros H1 H2. now rewrite !deriveKey_message. Qed.

(** ** Generating and unsealing *)

(** [UnsealKey] hands on the error of the decryption as it is: the test on
    the length changes nothing of what is returned. *)
Lemma UnsealKey_eq (kms : masterKeyKMS) (id : string) (sealed : list byte)
    (ctx : Context) (ord : list (string * string)) :
  UnsealKey kms id sealed ctx ord
  = (append_at0 zero32
       (sio_DecryptBuffer (deriveKey kms id ctx ord) sealed).1,
     (sio_DecryptBuffer (deriveKey kms id ctx ord) sealed).2).
Proof.
  unfold UnsealKey.
  destruct (sio_DecryptBuffer _ sealed) as [out [e|]]; simpl.
  - reflexivity.
  - now destruct (negb _).
Qed.

Lemma GenerateKey_eq (id : string) (ctx : Context)
    (ord : list (string * string)) (s : Store) :
  GenerateKey id ctx ord s
  = if (32 <=? length (rand_Reader s))%nat
    then
      let key := take 32 (rand_Reader s) in
      let r := sio_Encrypt (deriveKey (self s) id ctx ord) key
                 (drop 32 (rand_Reader s)) in
      let s' := {| self := self s; rand_Reader := r.2 |} in
      if bool_decide (r.1.2 ≠ None) || negb (Z.of_nat (length r.1.1) =? 64)
      then (Fatal (errors_New "KMS: unable to encrypt data key"), s')
      else (Returned (key, r.1.1, None), s')
    else (Fatal errOutOfEntropy, {| self := self s; rand_Reader := [] |}).
Proof.
  unfold GenerateKey, bind, rand_ReadFull, rand_call.
  destruct (32 <=? length (rand_Reader s))%nat; simpl.
  - destruct (sio_Encrypt _ _ _) as [[buffer err] rest]; simpl.
    now destruct (bool_decide (err ≠ None) || _).
  - reflexivity.
Qed.

(** No call writes to the backend object. *)
Lemma GenerateKey_self (id : string) (ctx : Context)
    (ord : list (string * string)) (s : Store) :
  self (GenerateKey id ctx ord s).2 = self s.
Proof.
  rewrite GenerateKey_eq.
  destruct (32 <=? _)%nat; [|reflexivity]. simpl.
  now destruct (bool_decide _ || _).
Qed.

(** What a returning [GenerateKey] has done. *)
Lemma GenerateKey_returned (id : string) (ctx : Context)
    (ord : list (string * string)) (s s' : Store)
    (key sealed : list byte) (err : option error) :
  GenerateKey id ctx ord s = (Returned (key, sealed, err), s') ->
  (32 <= length (rand_Reader s))%nat
  /\ key = take 32 (rand_Reader s)
  /\ err = None
  /\ length sealed = 64%nat
  /\ sio_Encrypt (deriveKey (self s) id ctx ord) key
       (drop 32 (rand_Reader s))
     = ((sealed, None), rand_Reader s')
  /\ self s' = self s.
Proof.
  intros Hgen. rewrite GenerateKey_eq in Hgen.
  destruct (32 <=? length (rand_Reader s))%nat eqn:Hpool; [|discriminate].
  apply Nat.leb_le in Hpool. cbv zeta in Hgen.
  destruct (sio_Encrypt _ _ _) as [[c e] rest] eqn:Henc. simpl in Hgen.
  destruct (bool_decide (e ≠ None)) eqn:He; [discriminate|].
  apply bool_decide_eq_false in He.
  assert (e = None) as -> by (destruct e; [exfalso; apply He|]; easy).
  simpl in Hgen.
  destruct (Z.of_nat (length c) =? 64) eqn:Hn; [|discriminate].
  apply Z.eqb_eq in Hn. simpl in Hgen.
  injection Hgen as <- <- <- <-. simpl.
  repeat split; try assumption; lia.
Qed.

Lemma call_self (c : Call) (s : Store) : self (call c s).2 = self s.
Proof.
  destruct c as [|id|id ctx ord|id sealed ctx ord|]; try reflexivity.
  - unfold call, bind.
    pose proof (GenerateKey_self id ctx ord s) as Hg.
    destruct (GenerateKey id ctx ord s) as [[[[key sealed] err]|e] s'];
      exact Hg.
  - unfold call, bind, get_self.
    now destruct (UnsealKey _ _ _ _ _).
Qed.

Lemma calls_self (cs : list Call) :
  forall s : Store, self (calls cs s).2 = self s.
Proof.
  induction cs as [|c cs IH]; intros s; [reflexivity|].
  change (calls (c :: cs) s)
    with (bind (call c)
            (fun r => bind (calls cs) (fun rs => ret (r :: rs))) s).
  unfold bind.
  pose proof (call_self c s) as Hc.
  destruct (call c s) as [[r|e] s1]; [|exact Hc].
  pose proof (IH s1) as Hcs.
  destruct (calls cs s1) as [[rs|e] s2]; simpl in *; congruence.
Qed.

(** C1. The specification lets [UnsealKey] succeed only when the decryption
    succeeds and the plaintext has 32 bytes. The code tests the length but
    returns the error of the decryption, which is nil on that path: a blob
    that decrypts to a plaintext of another length comes back with no error,
    together with whatever the [key] array then holds. *)
Theorem UnsealKey_other_length_returns_nil_error (kms : masterKeyKMS)
    (id : string) (sealedKey : list byte) (ctx : Context)
    (ord : list (string * string)) (out : list byte) :
  sio_DecryptBuffer (deriveKey kms id ctx ord) sealedKey = (out, None) ->
  length out <> 32%nat ->
  UnsealKey kms id sealedKey ctx ord = (append_at0 zero32 out, None).
Proof.
  intros Hdec _. rewrite UnsealKey_eq, Hdec. reflexivity.
Qed.

(** C2. A key that [GenerateKey] returned is recovered by [UnsealKey] from
    the sealed blob returned with it, under the same key ID and context, for
    any range orders of the two calls, as long as the sealing library opens
    what it sealed. *)
Theorem UnsealKey_of_GenerateKey (id : string) (ctx : Context)
    (ord1 ord2 : list (string * string)) (s s' : Store)
    (dataKey sealed : list byte) (err : option error) :
  (forall k p rnd c rnd' : list byte,
      sio_Encrypt k p rnd = ((c, None), rnd') ->
      sio_DecryptBuffer k c = (p, None)) ->
  range_of ctx ord1 -> range_of ctx ord2 ->
  GenerateKey id ctx ord1 s = (Returned (dataKey, sealed, err), s') ->
  UnsealKey (self s') id sealed ctx ord2 = (dataKey, None).
Proof.
  intros Hrt Hr1 Hr2 Hgen.
  apply GenerateKey_returned in Hgen
    as (Hpool & -> & _ & _ & Henc & Hself).
  rewrite UnsealKey_eq, Hself.
  rewrite (deriveKey_order (self s) id ctx ord2 ord1 Hr2 Hr1).
  rewrite (Hrt _ _ _ _ _ Henc). simpl.
  rewrite append_at0_full; [reflexivity|].
  rewrite length_take. lia.
Qed.

(** C5. The derived key is the HMAC-SHA-256, keyed by the master key, of the
    bytes of the key ID followed by the canonical form of the context; it
    has 32 bytes; and a nil context derives the key of the empty context. *)
Theorem deriveKey_is_hmac (kms : masterKeyKMS) (id : string)
    (context : Context) (ord : list (string * string)) :
  (forall k m : list byte, length (hmac_sha256 k m) = 32%nat) ->
  range_of context ord ->
  deriveKey kms id context ord
  = hmac_sha256 (masterKey kms) (bytes_of_string id ++ canonical context)
  /\ length (deriveKey kms id context ord) = 32%nat
  /\ deriveKey kms id Context_nil ord
     = deriveKey kms id (Context_map ∅) ord.
Proof.
  intros Hlen Hr. split; [|split].
  - rewrite deriveKey_message by exact Hr.
    apply append_at0_full, Hlen.
  - apply deriveKey_length.
  - reflexivity.
Qed.

(** C6. A sealed blob that [GenerateKey] returns has exactly 64 bytes and is
    what the sealing library wrote for the returned key; when the sealing
    fails or writes another number of bytes the call ends in the fatal
    condition and returns nothing; and when the random source delivers the
    key and the sealing writes 64 bytes the call does return. The sealing
    call reads the random source after the key was drawn and leaves it as
    the library left it. *)
Theorem GenerateKey_sealed_is_64_bytes (id : string) (ctx : Context)
    (ord : list (string * string)) (s : Store) :
  (forall (key sealed : list byte) (err : option error) (s' : Store),
      GenerateKey id ctx ord s = (Returned (key, sealed, err), s') ->
      length sealed = 64%nat /\ err = None /\ length key = 32%nat
      /\ sio_Encrypt (deriveKey (self s) id ctx ord) key
           (drop 32 (rand_Reader s))
         = ((sealed, None), rand_Reader s'))
  /\ (forall (c : list byte) (e : option error) (rest : list byte),
         (32 <= length (rand_Reader s))%nat ->
         sio_Encrypt (deriveKey (self s) id ctx ord)
                     (take 32 (rand_Reader s)) (drop 32 (rand_Reader s))
         = ((c, e), rest) ->
         e <> None \/ length c <> 64%nat ->
         exists s' : Store,
           GenerateKey id ctx ord s
           = (Fatal (errors_New "KMS: unable to encrypt data key"), s'))
  /\ (forall c rest : list byte,
         (32 <= length (rand_Reader s))%nat ->
         sio_Encrypt (deriveKey (self s) id ctx ord)
                     (take 32 (rand_Reader s)) (drop 32 (rand_Reader s))
         = ((c, None), rest) ->
         length c = 64%nat ->
         GenerateKey id ctx ord s
         = (Returned (take 32 (rand_Reader s), c, None),
            {| self := self s; rand_Reader := rest |})).
Proof.
  split; [|split].
  - intros key sealed err s' Hgen.
    apply GenerateKey_returned in Hgen
      as (Hpool & -> & -> & Hlen & Henc & _).
    repeat split; [exact Hlen| |exact Henc].
    rewrite length_take. lia.
  - intros c e rest Hpool Henc Hbad.
    rewrite GenerateKey_eq.
    apply Nat.leb_le in Hpool. rewrite Hpool. cbv zeta. rewrite Henc.
    cbn [fst snd]. eexists.
    destruct Hbad as [He|Hc].
    + rewrite bool_decide_eq_true_2 by exact He. reflexivity.
    + replace (Z.of_nat (length c) =? 64) with false
        by (symmetry; apply Z.eqb_neq; lia).
      rewrite orb_true_r. reflexivity.
  - intros c rest Hpool Henc Hc.
    rewrite GenerateKey_eq.
    apply Nat.leb_le in Hpool. rewrite Hpool. cbv zeta. rewrite Henc.
    cbn [fst snd].
    rewrite bool_decide_eq_false_2 by (intros H; now apply H).
    replace (Z.of_nat (length c) =? 64) with true
      by (symmetry; apply Z.eqb_eq; lia).
    reflexivity.
Qed.

(** C7. A sealed blob that [GenerateKey] returned under one key ID and
    context does not unseal under a key ID and context that derive another
    key: [UnsealKey] returns an error, as long as the sealing library
    rejects what was sealed under another key. *)
Theorem UnsealKey_under_other_binding_fails (id id' : string)
    (ctx ctx' : Context) (ord ord' : list (string * string)) (s s' : Store)
    (dataKey sealed : list byte) (err : option error) :
  (forall k k' p rnd c rnd' : list byte,
      length k = 32%nat -> length k' = 32%nat -> k <> k' ->
      sio_Encrypt k p rnd = ((c, None), rnd') ->
      (sio_DecryptBuffer k' c).2 <> None) ->
  GenerateKey id ctx ord s = (Returned (dataKey, sealed, err), s') ->
  deriveKey (self s) id ctx ord <> deriveKey (self s) id' ctx' ord' ->
  (UnsealKey (self s') id' sealed ctx' ord').2 <> None.
Proof.
  intros Hreject Hgen Hne.
  apply GenerateKey_returned in Hgen
    as (Hpool & -> & _ & _ & Henc & Hself).
  rewrite UnsealKey_eq, Hself. simpl.
  apply (Hreject _ _ _ _ _ _ (deriveKey_length _ _ _ _)
           (deriveKey_length _ _ _ _) Hne Henc).
Qed.

(** C9. No call of [DefaultKeyID], [CreateKey], [GenerateKey], [UnsealKey]
    or [Info] changes the backend object: after one call, and after any
    sequence of calls, its master key and its key ID are what they were. *)
Theorem no_call_mutates_backend (s : Store) :
  (forall c : Call, self (call c s).2 = self s)
  /\ (forall cs : list Call,
         masterKey (self (calls cs s).2) = masterKey (self s)
         /\ keyID (self (calls cs s).2) = keyID (self s)).
Proof.
  split.
  - intros c. apply call_self.
  - intros cs. now rewrite calls_self.
Qed.

(** C10. [DefaultKeyID] on the backend that [NewMasterKey] returns for a key
    ID gives that key ID, also after any sequence of calls on the backend. *)
Theorem DefaultKeyID_of_NewMasterKey (id : string) (key pool : list byte)
    (cs : list Call) :
  DefaultKeyID (NewMasterKey id key) = id
  /\ DefaultKeyID
       (self (calls cs {| self := NewMasterKey id key;
                          rand_Reader := pool |}).2) = id.
Proof.
  split; [reflexivity|]. now rewrite calls_self.
Qed.

End BackendProperties.

(** C8. [CreateKey] on the master-key backend returns the error that says
    the operation is not supported, for every key ID; it never returns nil. *)
Theorem CreateKey_is_unsupported (kms : masterKeyKMS) (id : string) :
  CreateKey kms id
  = Some (errors_New
            "crypto: creating keys is not supported by a static master key")
  /\ CreateKey kms id <> None.
Proof. split; [reflexivity|discriminate]. Qed.

(** ** The scenario of the specification *)

(** Over the stand-in, [GenerateKey] returns as soon as the random source
    holds the 32 bytes of the key and the 12 bytes of the nonce. *)
Lemma GenerateKey_StandIn (hmac : list byte -> list byte -> list byte)
    (e : error) (id : string) (ctx : Context) (ord : list (string * string))
    (s : Store) :
  (44 <= length (rand_Reader s))%nat ->
  GenerateKey hmac StandIn.Encrypt e id ctx ord s
  = (Returned (take 32 (rand_Reader s),
               deriveKey hmac (self s) id ctx ord ++ take 32 (rand_Reader s),
               None),
     {| self := self s; rand_Reader := drop 12 (drop 32 (rand_Reader s)) |}).
Proof.
  intros Hpool. rewrite GenerateKey_eq.
  replace (32 <=? length (rand_Reader s))%nat with true
    by (symmetry; apply Nat.leb_le; lia).
  cbv zeta.
  rewrite (StandIn_Encrypt_32 _ _ _ (deriveKey_length hmac _ _ _ _))
    by (rewrite length_drop; lia).
  cbn [fst snd].
  rewrite bool_decide_eq_false_2 by (intros H; now apply H).
  rewrite length_app, deriveKey_length, length_take.
  replace (Z.of_nat (32 + 32 `min` length (rand_Reader s)) =? 64) with true
    by (symmetry; apply Z.eqb_eq; lia).
  reflexivity.
Qed.

Lemma pool64_length : (32 <= length (rand_Reader store0))%nat.
Proof. vm_compute. lia. Qed.

Lemma pool64_length_44 : (44 <= length (rand_Reader store0))%nat.
Proof. vm_compute. lia. Qed.

Lemma pool64_rest_length : (12 <= length (drop 32 (rand_Reader store0)))%nat.
Proof. vm_compute. lia. Qed.

Lemma range_of_ctx_o1 : range_of ctx_o1 ord_o1.
Proof. unfold range_of. vm_compute map_to_list. reflexivity. Qed.

Lemma range_of_ctx_o1_swapped :
  range_of ctx_o1 [("bucket", "b1"); ("object", "o1")].
Proof. unfold range_of. vm_compute map_to_list. apply perm_swap. Qed.

Lemma GenerateKey0_store0 :
  GenerateKey0 "default" ctx_o1 ord_o1 store0
  = (Returned (take 32 pool64, sealed_o1, None), store1).
Proof. exact (GenerateKey_StandIn _ _ _ _ _ store0 pool64_length_44). Qed.

(** The two objects of the scenario derive different keys. *)
Lemma deriveKey0_o1_o2 :
  deriveKey0 kms0 "default" ctx_o1 ord_o1
  <> deriveKey0 kms0 "default" ctx_o2 ord_o2.
Proof. intros Heq. vm_compute in Heq. discriminate Heq. Qed.

Lemma sealed16_opens :
  StandIn.DecryptBuffer (deriveKey0 kms0 "default" ctx_o1 ord_o1) sealed16
  = (replicate 16 xff, None).
Proof.
  apply (StandIn_round_trip _ _ pool64 _ (drop 12 pool64)). unfold sealed16.
  rewrite (StandIn_Encrypt_32 _ _ _ (deriveKey_length _ _ _ _ _))
    by (vm_compute; lia).
  reflexivity.
Qed.

Lemma sealed_o1_seals :
  StandIn.Encrypt (deriveKey0 (self store0) "default" ctx_o1 ord_o1)
                  (take 32 (rand_Reader store0)) (drop 32 (rand_Reader store0))
  = ((sealed_o1, None), rand_Reader store1).
Proof.
  exact (StandIn_Encrypt_32 _ _ _ (deriveKey_length _ _ _ _ _)
           pool64_rest_length).
Qed.

Lemma sealed_o1_length : length sealed_o1 = 64%nat.
Proof.
  unfold sealed_o1. rewrite length_app, deriveKey_length. reflexivity.
Qed.

Lemma StandIn_rejects (k k' p rnd c rnd' : list byte) :
  length k = 32%nat -> length k' = 32%nat -> k <> k' ->
  StandIn.Encrypt k p rnd = ((c, None), rnd') ->
  (StandIn.DecryptBuffer k' c).2 <> None.
Proof. intros _ _. apply StandIn_wrong_key. Qed.

Lemma UnsealKey_other_length_returns_nil_error_witness :
  StandIn.DecryptBuffer (deriveKey0 kms0 "default" ctx_o1 ord_o1) sealed16
  = (replicate 16 xff, None)
  /\ length (replicate 16 xff) <> 32%nat
  /\ UnsealKey0 kms0 "default" sealed16 ctx_o1 ord_o1
     = (append_at0 zero32 (replicate 16 xff), None).
Proof.
  assert (length (replicate 16 xff) <> 32%nat) as Hlen by discriminate.
  split; [exact sealed16_opens|]. split; [exact Hlen|].
  exact (UnsealKey_other_length_returns_nil_error
           SHA256.hmac StandIn.DecryptBuffer kms0 "default" sealed16
           ctx_o1 ord_o1 (replicate 16 xff) sealed16_opens Hlen).
Defined.

Lemma UnsealKey_of_GenerateKey_witness :
  (forall k p rnd c rnd' : list byte,
      StandIn.Encrypt k p rnd = ((c, None), rnd') ->
      StandIn.DecryptBuffer k c = (p, None))
  /\ range_of ctx_o1 ord_o1
  /\ range_of ctx_o1 [("bucket", "b1"); ("object", "o1")]
  /\ GenerateKey0 "default" ctx_o1 ord_o1 store0
     = (Returned (take 32 pool64, sealed_o1, None), store1)
  /\ UnsealKey0 (self store1) "default" sealed_o1 ctx_o1
       [("bucket", "b1"); ("object", "o1")]
     = (take 32 pool64, None).
Proof.
  split; [exact StandIn_round_trip|].
  split; [exact range_of_ctx_o1|].
  split; [exact range_of_ctx_o1_swapped|].
  split; [exact GenerateKey0_store0|].
  exact (UnsealKey_of_GenerateKey
           SHA256.hmac StandIn.Encrypt StandIn.DecryptBuffer
           StandIn.errOutOfEntropy "default" ctx_o1 ord_o1
           [("bucket", "b1"); ("object", "o1")] store0 store1
           (take 32 pool64) sealed_o1 None
           StandIn_round_trip range_of_ctx_o1 range_of_ctx_o1_swapped
           GenerateKey0_store0).
Defined.

Lemma deriveKey_is_hmac_witness :
  (forall k m : list byte, length (SHA256.hmac k m) = 32%nat)
  /\ range_of ctx_o1 ord_o1
  /\ deriveKey0 kms0 "default" ctx_o1 ord_o1
     = SHA256.hmac (masterKey kms0)
         (bytes_of_string "default" ++ canonical ctx_o1)
  /\ length (deriveKey0 kms0 "default" ctx_o1 ord_o1) = 32%nat
  /\ deriveKey0 kms0 "default" Context_nil ord_o1
     = deriveKey0 kms0 "default" (Context_map ∅) ord_o1.
Proof.
  split; [exact hmac_length|].
  split; [exact range_of_ctx_o1|].
  exact (deriveKey_is_hmac SHA256.hmac kms0 "default" ctx_o1 ord_o1
           hmac_length range_of_ctx_o1).
Defined.

Lemma GenerateKey_sealed_is_64_bytes_witness :
  (32 <= length (rand_Reader store0))%nat
  /\ StandIn.Encrypt (deriveKey0 (self store0) "default" ctx_o1 ord_o1)
       (take 32 (rand_Reader store0)) (drop 32 (rand_Reader store0))
     = ((sealed_o1, None), rand_Reader store1)
  /\ length sealed_o1 = 64%nat
  /\ GenerateKey0 "default" ctx_o1 ord_o1 store0
     = (Returned (take 32 (rand_Reader store0), sealed_o1, None),
        {| self := self store0; rand_Reader := rand_Reader store1 |}).
Proof.
  split; [exact pool64_length|]. split; [exact sealed_o1_seals|].
  split; [exact sealed_o1_length|].
  exact (proj2 (proj2 (GenerateKey_sealed_is_64_bytes
                         SHA256.hmac StandIn.Encrypt StandIn.errOutOfEntropy
                         "default" ctx_o1 ord_o1 store0))
           sealed_o1 (rand_Reader store1)
           pool64_length sealed_o1_seals sealed_o1_length).
Defined.

Lemma UnsealKey_under_other_binding_fails_witness :
  (forall k k' p rnd c rnd' : list byte,
      length k = 32%nat -> length k' = 32%nat -> k <> k' ->
      StandIn.Encrypt k p rnd = ((c, None), rnd') ->
      (StandIn.DecryptBuffer k' c).2 <> None)
  /\ GenerateKey0 "default" ctx_o1 ord_o1 store0
     = (Returned (take 32 pool64, sealed_o1, None), store1)
  /\ deriveKey0 (self store0) "default" ctx_o1 ord_o1
     <> deriveKey0 (self store0) "default" ctx_o2 ord_o2
  /\ (UnsealKey0 (self store1) "default" sealed_o1 ctx_o2 ord_o2).2
     <> None.
Proof.
  split; [exact StandIn_rejects|].
  split; [exact GenerateKey0_store0|].
  split; [exact deriveKey0_o1_o2|].
  exact (UnsealKey_under_other_binding_fails
           SHA256.hmac StandIn.Encrypt StandIn.DecryptBuffer
           StandIn.errOutOfEntropy "default" "default" ctx_o1 ctx_o2
           ord_o1 ord_o2 store0 store1 (take 32 pool64) sealed_o1 None
           StandIn_rejects GenerateKey0_store0 deriveKey0_o1_o2).
Defined.

(** The call of C1 evaluated: sixteen bytes of payload come back as a key,
    padded by the zeros of the array, and the error is nil. *)
Example UnsealKey_sealed16 :
  UnsealKey0 kms0 "default" sealed16 ctx_o1 ord_o1
  = (replicate 16 xff ++ replicate 16 x00, None).
Proof. vm_compute. reflexivity. Qed.

(** The derived key of the scenario, as [crypto/hmac] computes it. *)
Example deriveKey0_o1_hex :
  SHA256.hex (deriveKey0 kms0 "default" ctx_o1 ord_o1)
  = "c7407b7b57572418cf72317f135b1b6226eca70d1fc7e8e732b888a729e27ce7".
Proof. vm_compute. reflexivity. Qed.

(** * Further properties *)

(** ** Writers that may fail *)

#[export] Program Instance Buffer_Contract : WriterContract Buffer :=
  {| written := fun b => b |}.
Next Obligation.
  intros w p. exists (length p). simpl.
  split; [lia|]. split; [reflexivity|].
  split; [now rewrite firstn_all|reflexivity].
Qed.

#[export] Program Instance LimitedWriter_Contract :
  WriterContract LimitedWriter := {| written := lw_data |}.
Next Obligation.
  intros w p. unfold Write, LimitedWriter_Writer.
  destruct (length p <=? lw_room w)%nat eqn:Hfit.
  - exists (length p). simpl.
    split; [lia|]. split; [reflexivity|].
    split; [now rewrite firstn_all|reflexivity].
  - apply Nat.leb_gt in Hfit. exists (lw_room w). simpl.
    split; [lia|]. split; [reflexivity|].
    split; [reflexivity|discriminate].
Qed.

(** The chunk [WriteTo] writes for a key: its member, and a comma unless the
    key is the last one. *)
Lemma members_chunk (c : Context) (k : string) (ks : list string) :
  members c (k :: ks)
  = (member c k ++ (if bool_decide (ks = []) then [] else [comma]))
      ++ members c ks.
Proof. rewrite members_cons. now rewrite <- app_assoc. Qed.

Lemma WriteTo_chunk (c : Context) (total i : nat) (k : string)
    (ks : list string) :
  (i + length (k :: ks) = total)%nat ->
  bytes_of_string
    (if Z.of_nat i =? Z.of_nat total - 1
     then drop_last (quote +:+ k +:+ quote +:+ ":" +:+ quote +:+ index c k
                           +:+ quote +:+ ",")
     else quote +:+ k +:+ quote +:+ ":" +:+ quote +:+ index c k
                +:+ quote +:+ ",")
  = member c k ++ (if bool_decide (ks = []) then [] else [comma]).
Proof.
  intros Hlen. cbn [length] in Hlen. rewrite sprintf_snoc.
  destruct ks as [|k' ks].
  - rewrite bool_decide_eq_true_2 by reflexivity. cbn [length] in Hlen.
    replace (Z.of_nat i =? Z.of_nat total - 1) with true
      by (symmetry; apply Z.eqb_eq; lia).
    change ("," : string) with (String ","%char EmptyString).
    rewrite drop_last_snoc, sprintf_member. now rewrite app_nil_r.
  - rewrite bool_decide_eq_false_2 by discriminate. cbn [length] in Hlen.
    replace (Z.of_nat i =? Z.of_nat total - 1) with false
      by (symmetry; apply Z.eqb_neq; lia).
    rewrite bytes_of_string_app, sprintf_member. reflexivity.
Qed.

(** The loop of [WriteTo] on a writer that keeps the contract: it either runs
    through, having written the members of the remaining keys, or stops at
    the first error, having written a prefix of them. *)
Lemma WriteTo_loop_contract {W} `{WriterContract W} (c : Context)
    (total : nat) (ks : list string) :
  forall (i : nat) (w : W) (x : nat),
    (i + length ks = total)%nat ->
    match WriteTo_loop c total i ks w (wrap64 (Z.of_nat x)) with
    | inl (w', n') =>
        written w' = written w ++ members c ks
        /\ n' = wrap64 (Z.of_nat (x + length (members c ks)))
    | inr (w', (n', err)) =>
        err <> None
        /\ exists k : nat,
            (k <= length (members c ks))%nat
            /\ written w' = written w ++ take k (members c ks)
            /\ n' = wrap64 (Z.of_nat (x + k))
    end.
Proof.
  induction ks as [|key ks IH]; intros i w x Hlen.
  - simpl. rewrite app_nil_r, Nat.add_0_r. now split.
  - cbn [WriteTo_loop]. unfold io_WriteString.
    rewrite (WriteTo_chunk c total i key ks Hlen), members_chunk.
    remember (member c key ++ _) as chunk eqn:Hchunk. clear Hchunk.
    destruct (Write_contract w chunk) as (k & Hk & Hnn & Hw & Hfull).
    destruct (Write w chunk) as [w1 [nn err]]. cbn [fst snd] in Hnn, Hw, Hfull.
    subst nn. rewrite add64_wrap, <- Nat2Z.inj_add.
    destruct err as [e|].
    + split; [discriminate|]. exists k.
      rewrite length_app. split; [lia|].
      now rewrite take_app_le by exact Hk.
    + assert (k = length chunk) as -> by (now apply Hfull).
      cbn [length] in Hlen.
      specialize (IH (S i) w1 (x + length chunk)%nat ltac:(lia)).
      destruct (WriteTo_loop c total (S i) ks w1 _) as [[w2 n2]|[w2 [n2 e2]]].
      * destruct IH as [Hw2 Hn2]. rewrite Hw2, Hw, firstn_all.
        rewrite <- app_assoc, length_app. split; [reflexivity|].
        rewrite Hn2. f_equal. lia.
      * destruct IH as (He2 & k2 & Hk2 & Hw2 & Hn2).
        split; [exact He2|]. exists (length chunk + k2)%nat.
        rewrite length_app. split; [lia|].
        rewrite take_app_add, Hw2, Hw, firstn_all, <- app_assoc.
        split; [reflexivity|]. rewrite Hn2. f_equal. lia.
Qed.

(** X1. On every writer that keeps the contract of [io.Writer], failing or
    not, what [WriteTo] has written when it returns is a prefix of the
    canonical form of the context, the count it returns is the length of that
    prefix, and a nil error means that the whole form was written. *)
Theorem WriteTo_writes_a_prefix {W} `{WriterContract W} (c : Context)
    (ord : list (string * string)) (w : W) :
  range_of c ord ->
  exists k : nat,
    (k <= length (canonical c))%nat
    /\ written (WriteTo c ord w).1 = written w ++ take k (canonical c)
    /\ (WriteTo c ord w).2.1 = wrap64 (Z.of_nat k)
    /\ ((WriteTo c ord w).2.2 = None -> k = length (canonical c)).
Proof.
  intros Hr. unfold WriteTo, canonical.
  rewrite (sort_Strings_perm (ord.*1) ((map_to_list (entries c)).*1))
    by (now rewrite Hr).
  set (ks := sort_Strings _). unfold io_WriteString.
  change (bytes_of_string "{") with [lbrace].
  change (bytes_of_string "}") with [rbrace].
  destruct (Write_contract w [lbrace]) as (k0 & Hk0 & Hnn0 & Hw0 & Hfull0).
  destruct (Write w [lbrace]) as [w0 [nn0 err0]].
  simpl in Hnn0, Hw0, Hfull0. subst nn0.
  change (add64 0 (Z.of_nat k0)) with (wrap64 (0 + Z.of_nat k0)).
  rewrite Z.add_0_l.
  destruct err0 as [e0|].
  - exists k0. cbn [fst snd]. cbn [length] in Hk0.
    split; [rewrite !length_app; cbn [length]; lia|].
    split; [|split; [reflexivity|discriminate]].
    rewrite Hw0. f_equal. destruct k0 as [|[|k0]]; try reflexivity; lia.
  - rewrite (Hfull0 eq_refl) in *. cbn [length take] in *.
    pose proof (WriteTo_loop_contract c (length ks) ks 0 w0 1 eq_refl) as HL.
    destruct (WriteTo_loop c (length ks) 0 ks w0 _) as [[w1 n1]|[w1 [n1 e1]]].
    + destruct HL as [Hw1 Hn1].
      destruct (Write_contract w1 [rbrace]) as (k2 & Hk2 & Hnn2 & Hw2 & Hfull2).
      destruct (Write w1 [rbrace]) as [w2 [nn2 err2]].
      simpl in Hnn2, Hw2, Hfull2. subst nn2 n1. cbn [fst snd].
      rewrite add64_wrap, <- Nat2Z.inj_add.
      exists (1 + length (members c ks) + k2)%nat.
      cbn [length] in Hk2.
      split; [rewrite !length_app; cbn [length]; lia|].
      split; [|split; [reflexivity|]].
      * rewrite Hw2, Hw1, Hw0, <- !app_assoc. f_equal.
        change ([lbrace] ++ members c ks ++ [rbrace])
          with (lbrace :: (members c ks ++ [rbrace])).
        cbn [Nat.add take app]. f_equal.
        now rewrite take_app_add.
      * intros Hnone. rewrite (Hfull2 Hnone), !length_app. cbn [length]. lia.
    + destruct HL as (He1 & k1 & Hk1 & Hw1 & Hn1). cbn [fst snd].
      exists (1 + k1)%nat.
      split; [rewrite !length_app; cbn [length]; lia|].
      split; [|split; [exact Hn1|intros Hn; now destruct He1]].
      rewrite Hw1, Hw0, <- app_assoc. f_equal.
      change ([lbrace] ++ members c ks ++ [rbrace])
        with (lbrace :: (members c ks ++ [rbrace])).
      cbn [Nat.add take app]. f_equal.
      now rewrite take_app_le by exact Hk1.
Qed.

Lemma WriteTo_writes_a_prefix_witness :
  range_of ctx_ab [("a", "1"); ("b", "2")]
  /\ exists k : nat,
      (k <= length (canonical ctx_ab))%nat
      /\ written (WriteTo ctx_ab [("a", "1"); ("b", "2")]
                    {| lw_data := []; lw_room := 5 |}).1
         = written {| lw_data := []; lw_room := 5 |}
             ++ take k (canonical ctx_ab)
      /\ (WriteTo ctx_ab [("a", "1"); ("b", "2")]
            {| lw_data := []; lw_room := 5 |}).2.1 = wrap64 (Z.of_nat k)
      /\ ((WriteTo ctx_ab [("a", "1"); ("b", "2")]
             {| lw_data := []; lw_room := 5 |}).2.2 = None ->
          k = length (canonical ctx_ab)).
Proof.
  split; [exact range_of_ctx_ab|].
  exact (WriteTo_writes_a_prefix ctx_ab [("a", "1"); ("b", "2")]
           {| lw_data := []; lw_room := 5 |} range_of_ctx_ab).
Defined.

(** ** The empty context *)

Lemma member_length (c : Context) (k : string) :
  (5 <= length (member c k))%nat.
Proof. unfold member. rewrite !length_app. cbn [length]. lia. Qed.

Lemma members_length (c : Context) (k : string) (ks : list string) :
  (5 <= length (members c (k :: ks)))%nat.
Proof.
  rewrite members_cons, length_app.
  pose proof (member_length c k). lia.
Qed.

(** X2. A context encodes as [{}] exactly when it has no entries, be it the
    nil map or an empty one: [AppendTo] then appends these two bytes to any
    prefix and [WriteTo] writes them and reports two bytes. *)
Theorem empty_context_encoding (c : Context) (ord : list (string * string))
    (buf : Buffer) (dst : list byte) :
  range_of c ord ->
  (AppendTo c ord dst = dst ++ [lbrace; rbrace] <-> len c = 0%nat)
  /\ (len c = 0%nat ->
      WriteTo c ord buf = (buf ++ [lbrace; rbrace], (2, None))).
Proof.
  intros Hr. split.
  - rewrite AppendTo_canonical by exact Hr. split.
    + intros Heq. apply app_inv_head in Heq.
      unfold canonical in Heq. unfold len.
      rewrite <- length_map_to_list.
      rewrite <- (length_fmap fst), <- sort_Strings_length.
      destruct (sort_Strings _) as [|k ks]; [reflexivity|].
      exfalso. apply (f_equal length) in Heq.
      rewrite !length_app in Heq. cbn [length] in Heq.
      pose proof (members_length c k ks). lia.
    + intros Hlen. now rewrite canonical_empty.
  - intros Hlen. rewrite WriteTo_canonical by exact Hr.
    now rewrite canonical_empty.
Qed.

Lemma empty_context_encoding_witness :
  range_of Context_nil []
  /\ (AppendTo Context_nil [] (bytes_of_string "id")
      = bytes_of_string "id" ++ [lbrace; rbrace]
      <-> len Context_nil = 0%nat)
  /\ (len Context_nil = 0%nat ->
      WriteTo Context_nil [] ([] : Buffer)
      = ([] ++ [lbrace; rbrace], (2, None))).
Proof.
  assert (range_of Context_nil []) as Hr
    by (unfold range_of; simpl; now rewrite map_to_list_empty).
  split; [exact Hr|].
  exact (empty_context_encoding Context_nil [] [] (bytes_of_string "id") Hr).
Defined.

(** ** Reading the encoding back *)

(** A byte sequence is cut in one way only at the first occurrence of a
    byte. *)
Lemma split_at_first (a : byte) (l1 l2 r1 r2 : list byte) :
  a ∉ l1 -> a ∉ l2 -> l1 ++ a :: r1 = l2 ++ a :: r2 -> l1 = l2 /\ r1 = r2.
Proof.
  revert l2. induction l1 as [|x l1 IH]; intros [|y l2] H1 H2 Heq;
    simpl in Heq.
  - injection Heq as <-. now split.
  - injection Heq as <- _. exfalso. apply H2, list_elem_of_here.
  - injection Heq as -> _. exfalso. apply H1, list_elem_of_here.
  - injection Heq as <- Heq.
    destruct (IH l2) as [<- <-]; try assumption.
    + intros Hin. apply H1. now apply list_elem_of_further.
    + intros Hin. apply H2. now apply list_elem_of_further.
    + now split.
Qed.

Lemma bytes_of_string_inj (s t : string) :
  bytes_of_string s = bytes_of_string t -> s = t.
Proof.
  unfold bytes_of_string. intros Heq.
  rewrite <- (string_of_list_byte_of_string s),
          <- (string_of_list_byte_of_string t).
  now rewrite Heq.
Qed.

(** The members of two key lists, each followed by a closing brace, agree
    only if the keys and their values agree, when no key and no value holds
    a double quote. *)
Lemma members_inj (c1 c2 : Context) (ks1 : list string) :
  forall (ks2 : list string) (r1 r2 : list byte),
    (forall k, k ∈ ks1 -> quote_free k /\ quote_free (index c1 k)) ->
    (forall k, k ∈ ks2 -> quote_free k /\ quote_free (index c2 k)) ->
    members c1 ks1 ++ rbrace :: r1 = members c2 ks2 ++ rbrace :: r2 ->
    ks1 = ks2 /\ (forall k, k ∈ ks1 -> index c1 k = index c2 k).
Proof.
  induction ks1 as [|k1 ks1 IH]; intros [|k2 ks2] r1 r2 Hq1 Hq2 Heq.
  - split; [reflexivity|]. intros k Hk. now apply elem_of_nil in Hk.
  - rewrite members_cons in Heq. unfold member in Heq. simpl in Heq.
    discriminate Heq.
  - rewrite members_cons in Heq. unfold member in Heq. simpl in Heq.
    discriminate Heq.
  - rewrite !members_cons in Heq. unfold member in Heq.
    rewrite <- !app_assoc in Heq. simpl in Heq.
    injection Heq as Heq.
    destruct (Hq1 k1 (list_elem_of_here _ _)) as [Hk1 Hv1].
    destruct (Hq2 k2 (list_elem_of_here _ _)) as [Hk2 Hv2].
    apply split_at_first in Heq as [Hk Heq]; [|assumption..].
    apply bytes_of_string_inj in Hk as <-.
    injection Heq as Heq.
    apply split_at_first in Heq as [Hv Heq]; [|assumption..].
    apply bytes_of_string_inj in Hv.
    assert (ks1 = ks2 /\ (forall k, k ∈ ks1 -> index c1 k = index c2 k))
      as [<- Hrest].
    { destruct ks1 as [|k1' ks1], ks2 as [|k2' ks2].
      - split; [reflexivity|]. intros k Hin. now apply elem_of_nil in Hin.
      - rewrite bool_decide_eq_true_2 in Heq by reflexivity.
        rewrite bool_decide_eq_false_2 in Heq by discriminate.
        simpl in Heq. discriminate Heq.
      - rewrite bool_decide_eq_false_2 in Heq by discriminate.
        rewrite bool_decide_eq_true_2 in Heq by reflexivity.
        simpl in Heq. discriminate Heq.
      - rewrite !bool_decide_eq_false_2 in Heq by discriminate.
        injection Heq as Heq.
        apply (IH _ r1 r2); [| |exact Heq].
        + intros k Hin. apply Hq1. now apply list_elem_of_further.
        + intros k Hin. apply Hq2. now apply list_elem_of_further. }
    split; [reflexivity|].
    intros k Hin. apply elem_of_cons in Hin as [->|Hin]; [exact Hv|].
    now apply Hrest.
Qed.

(** The sorted keys of a context are its keys. *)
Lemma elem_of_sorted_keys (c : Context) (k : string) :
  k ∈ sort_Strings ((map_to_list (entries c)).*1)
  <-> is_Some (entries c !! k).
Proof.
  unfold sort_Strings. rewrite merge_sort_Permutation.
  rewrite list_elem_of_fmap. split.
  - intros ([k' v] & -> & Hin). apply elem_of_map_to_list in Hin.
    now exists v.
  - intros [v Hv]. exists (k, v). split; [reflexivity|].
    now apply elem_of_map_to_list.
Qed.

Lemma quote_free_sorted_keys (c : Context) (k : string) :
  quote_free_context c ->
  k ∈ sort_Strings ((map_to_list (entries c)).*1) ->
  quote_free k /\ quote_free (index c k).
Proof.
  intros Hq Hin. apply elem_of_sorted_keys in Hin as [v Hv].
  unfold index. rewrite Hv. now apply (Hq k v).
Qed.

(** The canonical form determines the entries of a context without double
    quotes. *)
Lemma canonical_inj (c1 c2 : Context) :
  quote_free_context c1 -> quote_free_context c2 ->
  canonical c1 = canonical c2 -> entries c1 = entries c2.
Proof.
  intros Hq1 Hq2 Heq. unfold canonical in Heq. simpl in Heq.
  injection Heq as Heq.
  apply members_inj in Heq as [Hks Hidx];
    [|intros k; now apply quote_free_sorted_keys..].
  apply map_eq. intros k.
  destruct (entries c1 !! k) as [v1|] eqn:H1.
  - assert (k ∈ sort_Strings ((map_to_list (entries c1)).*1)) as Hin
      by (apply elem_of_sorted_keys; now rewrite H1).
    pose proof (Hidx k Hin) as Hv. rewrite Hks in Hin.
    apply elem_of_sorted_keys in Hin as [v2 H2].
    unfold index in Hv. rewrite H1, H2 in Hv. simpl in Hv.
    now rewrite H2, Hv.
  - destruct (entries c2 !! k) as [v2|] eqn:H2; [|reflexivity].
    assert (k ∈ sort_Strings ((map_to_list (entries c2)).*1)) as Hin
      by (apply elem_of_sorted_keys; now rewrite H2).
    rewrite <- Hks in Hin. apply elem_of_sorted_keys in Hin as [v1 Hv1].
    rewrite H1 in Hv1. discriminate Hv1.
Qed.

(** X3. Contexts whose keys and values hold no double quote are told apart
    by their encoding: if [AppendTo] gives the same bytes for two of them,
    after the same prefix, they hold the same key/value pairs. *)
Theorem AppendTo_injective_without_quotes (c1 c2 : Context)
    (ord1 ord2 : list (string * string)) (dst : list byte) :
  quote_free_context c1 -> quote_free_context c2 ->
  range_of c1 ord1 -> range_of c2 ord2 ->
  AppendTo c1 ord1 dst = AppendTo c2 ord2 dst ->
  forall k : string, entries c1 !! k = entries c2 !! k.
Proof.
  intros Hq1 Hq2 Hr1 Hr2 Heq k.
  rewrite !AppendTo_canonical in Heq by assumption.
  apply app_inv_head in Heq.
  now rewrite (canonical_inj c1 c2 Hq1 Hq2 Heq).
Qed.

(** X4. The bytes that [deriveKey] authenticates, the key ID followed by the
    encoding of the context, determine both parts when the key ID holds no
    opening brace and the context no double quote. *)
Theorem deriveKey_framing_injective (id1 id2 : string) (c1 c2 : Context)
    (ord1 ord2 : list (string * string)) :
  brace_free id1 -> brace_free id2 ->
  quote_free_context c1 -> quote_free_context c2 ->
  range_of c1 ord1 -> range_of c2 ord2 ->
  bytes_of_string id1 ++ AppendTo c1 ord1 []
  = bytes_of_string id2 ++ AppendTo c2 ord2 [] ->
  id1 = id2 /\ forall k : string, entries c1 !! k = entries c2 !! k.
Proof.
  intros Hb1 Hb2 Hq1 Hq2 Hr1 Hr2 Heq.
  rewrite !AppendTo_canonical in Heq by assumption.
  unfold canonical in Heq. simpl in Heq.
  apply split_at_first in Heq as [Hid Heq]; [|assumption..].
  split; [now apply bytes_of_string_inj|].
  intros k. rewrite (canonical_inj c1 c2 Hq1 Hq2); [reflexivity|].
  unfold canonical. simpl. now rewrite Heq.
Qed.

Lemma quote_free_context_empty : quote_free_context (Context_map ∅).
Proof. intros k v Hkv. simpl in Hkv. now rewrite lookup_empty in Hkv. Qed.

Lemma quote_free_context_insert (m : gmap string string) (k v : string) :
  quote_free k -> quote_free v -> quote_free_context (Context_map m) ->
  quote_free_context (Context_map (<[k := v]> m)).
Proof.
  intros Hk Hv Hm k' v' Hkv. simpl in Hkv.
  destruct (decide (k = k')) as [<-|Hne].
  - rewrite lookup_insert_eq in Hkv. injection Hkv as <-. now split.
  - rewrite lookup_insert_ne in Hkv by exact Hne. now apply (Hm k' v').
Qed.

(** Decides that a byte does not occur in the bytes of a literal. *)
Ltac free_of_byte :=
  unfold quote_free, brace_free; apply (bool_decide_unpack _);
  vm_compute; exact I.

Lemma quote_free_ctx_ab : quote_free_context ctx_ab.
Proof.
  apply quote_free_context_insert; [free_of_byte|free_of_byte|].
  apply quote_free_context_insert; [free_of_byte|free_of_byte|].
  apply quote_free_context_empty.
Qed.

Lemma quote_free_ctx_ba : quote_free_context ctx_ba.
Proof.
  apply quote_free_context_insert; [free_of_byte|free_of_byte|].
  apply quote_free_context_insert; [free_of_byte|free_of_byte|].
  apply quote_free_context_empty.
Qed.

Lemma AppendTo_ctx_ab_ba (dst : list byte) :
  AppendTo ctx_ab [("a", "1"); ("b", "2")] dst
  = AppendTo ctx_ba [("b", "2"); ("a", "1")] dst.
Proof.
  rewrite (AppendTo_canonical _ _ _ range_of_ctx_ab).
  rewrite (AppendTo_canonical _ _ _ range_of_ctx_ba).
  reflexivity.
Qed.

Lemma AppendTo_injective_without_quotes_witness :
  quote_free_context ctx_ab /\ quote_free_context ctx_ba
  /\ range_of ctx_ab [("a", "1"); ("b", "2")]
  /\ range_of ctx_ba [("b", "2"); ("a", "1")]
  /\ AppendTo ctx_ab [("a", "1"); ("b", "2")] []
     = AppendTo ctx_ba [("b", "2"); ("a", "1")] []
  /\ forall k : string, entries ctx_ab !! k = entries ctx_ba !! k.
Proof.
  split; [exact quote_free_ctx_ab|]. split; [exact quote_free_ctx_ba|].
  split; [exact range_of_ctx_ab|]. split; [exact range_of_ctx_ba|].
  split; [exact (AppendTo_ctx_ab_ba [])|].
  exact (AppendTo_injective_without_quotes ctx_ab ctx_ba _ _ []
           quote_free_ctx_ab quote_free_ctx_ba
           range_of_ctx_ab range_of_ctx_ba (AppendTo_ctx_ab_ba [])).
Defined.

Lemma brace_free_default : brace_free "default".
Proof. free_of_byte. Qed.

Lemma framing_ctx_ab_ba :
  bytes_of_string "default" ++ AppendTo ctx_ab [("a", "1"); ("b", "2")] []
  = bytes_of_string "default" ++ AppendTo ctx_ba [("b", "2"); ("a", "1")] [].
Proof. now rewrite AppendTo_ctx_ab_ba. Qed.

Lemma deriveKey_framing_injective_witness :
  brace_free "default"
  /\ quote_free_context ctx_ab /\ quote_free_context ctx_ba
  /\ range_of ctx_ab [("a", "1"); ("b", "2")]
  /\ range_of ctx_ba [("b", "2"); ("a", "1")]
  /\ bytes_of_string "default" ++ AppendTo ctx_ab [("a", "1"); ("b", "2")] []
     = bytes_of_string "default"
         ++ AppendTo ctx_ba [("b", "2"); ("a", "1")] []
  /\ ("default" : string) = "default"
  /\ forall k : string, entries ctx_ab !! k = entries ctx_ba !! k.
Proof.
  split; [exact brace_free_default|].
  split; [exact quote_free_ctx_ab|]. split; [exact quote_free_ctx_ba|].
  split; [exact range_of_ctx_ab|]. split; [exact range_of_ctx_ba|].
  split; [exact framing_ctx_ab_ba|].
  exact (deriveKey_framing_injective "default" "default" ctx_ab ctx_ba _ _
           brace_free_default brace_free_default
           quote_free_ctx_ab quote_free_ctx_ba
           range_of_ctx_ab range_of_ctx_ba framing_ctx_ab_ba).
Defined.

(** ** Values that hold delimiters *)

Lemma sort_Strings_sorted (l l' : list string) :
  Sorted String.le l' -> l ≡ₚ l' -> sort_Strings l = l'.
Proof.
  intros Hs Hp. unfold sort_Strings.
  apply (Sorted_unique String.le).
  - apply Sorted_merge_sort; apply _.
  - exact Hs.
  - now rewrite merge_sort_Permutation.
Qed.

Lemma canonical_singleton (k v : string) :
  canonical (Context_map {[k := v]})
  = [lbrace] ++ member (Context_map {[k := v]}) k ++ [rbrace].
Proof.
  unfold canonical. simpl entries. rewrite map_to_list_singleton.
  reflexivity.
Qed.

Lemma index_singleton (k v : string) :
  index (Context_map {[k := v]}) k = v.
Proof. unfold index. simpl. now rewrite lookup_singleton_eq. Qed.

Lemma canonical_two (k1 v1 k2 v2 : string) :
  String.le k1 k2 -> k1 <> k2 ->
  canonical (Context_map (<[k2 := v2]> {[k1 := v1]}))
  = [lbrace]
      ++ (member (Context_map (<[k2 := v2]> {[k1 := v1]})) k1 ++ [comma]
            ++ member (Context_map (<[k2 := v2]> {[k1 := v1]})) k2)
      ++ [rbrace].
Proof.
  intros Hle Hne. unfold canonical. simpl entries.
  rewrite (sort_Strings_sorted _ [k1; k2]); [reflexivity| |].
  - repeat constructor. exact Hle.
  - rewrite map_to_list_insert
      by (rewrite lookup_singleton_ne; [reflexivity|exact Hne]).
    rewrite map_to_list_singleton. simpl. apply perm_swap.
Qed.

(** A context of one entry whose value holds a member encodes as the context
    of two entries. *)
Lemma canonical_value_with_member (k1 v1 k2 v2 : string) :
  String.le k1 k2 -> k1 <> k2 ->
  canonical (Context_map {[k1 := value_with_member v1 k2 v2]})
  = canonical (Context_map (<[k2 := v2]> {[k1 := v1]})).
Proof.
  intros Hle Hne.
  rewrite canonical_singleton, canonical_two by assumption.
  unfold member. rewrite index_singleton.
  unfold index. simpl entries.
  rewrite lookup_insert_eq, lookup_insert_ne, lookup_singleton_eq
    by (intros Heq; apply Hne; now symmetry).
  unfold value_with_member. simpl default. bytes_norm. reflexivity.
Qed.

(** X5. Values are not escaped, so the encoding does not tell every context
    from every other: the context with the one entry [k1] whose value is
    [v1","k2":"v2] encodes as the context with the entries [k1], [v1] and
    [k2], [v2], where [k1] sorts before [k2]. *)
Theorem AppendTo_value_with_member (k1 v1 k2 v2 : string)
    (ord1 ord2 : list (string * string)) (dst : list byte) :
  String.le k1 k2 -> k1 <> k2 ->
  range_of (Context_map {[k1 := value_with_member v1 k2 v2]}) ord1 ->
  range_of (Context_map (<[k2 := v2]> {[k1 := v1]})) ord2 ->
  AppendTo (Context_map {[k1 := value_with_member v1 k2 v2]}) ord1 dst
  = AppendTo (Context_map (<[k2 := v2]> {[k1 := v1]})) ord2 dst
  /\ entries (Context_map {[k1 := value_with_member v1 k2 v2]}) !! k2
     <> entries (Context_map (<[k2 := v2]> {[k1 := v1]})) !! k2.
Proof.
  intros Hle Hne Hr1 Hr2. split.
  - rewrite !AppendTo_canonical by assumption.
    now rewrite canonical_value_with_member.
  - simpl. rewrite lookup_insert_eq, lookup_singleton_ne by exact Hne.
    discriminate.
Qed.

Lemma key_id_with_object_neq (id x v : string) :
  id <> key_id_with_object id x v.
Proof.
  intros Heq. apply (f_equal bytes_of_string) in Heq.
  apply (f_equal length) in Heq. unfold key_id_with_object in Heq.
  rewrite !bytes_of_string_app, !length_app in Heq.
  change (length (bytes_of_string "{")) with 1%nat in Heq. lia.
Qed.

(** The key ID and the encoding are joined without a separator, so an object
    may move from the context into the key ID. *)
Lemma framing_value_with_object (id x v y w : string) :
  bytes_of_string id
    ++ canonical (Context_map {[x := value_with_object v y w]})
  = bytes_of_string (key_id_with_object id x v)
      ++ canonical (Context_map {[y := w]}).
Proof.
  rewrite !canonical_singleton. unfold member. rewrite !index_singleton.
  unfold value_with_object, key_id_with_object.
  rewrite !bytes_of_string_app.
  change (bytes_of_string "}{") with [rbrace; lbrace].
  bytes_norm. reflexivity.
Qed.

Section Collisions.

Variable hmac_sha256 : list byte -> list byte -> list byte.
Variable sio_Encrypt :
  list byte -> list byte -> list byte -> (list byte * option error) * list byte.
Variable sio_DecryptBuffer :
  list byte -> list byte -> list byte * option error.
Variable errOutOfEntropy : error.

Local Abbreviation deriveKey := (deriveKey hmac_sha256).
Local Abbreviation GenerateKey :=
  (GenerateKey hmac_sha256 sio_Encrypt errOutOfEntropy).
Local Abbreviation UnsealKey := (UnsealKey hmac_sha256 sio_DecryptBuffer).

(** The derived key reads the backend through its master key only. *)
Lemma deriveKey_masterKey (kms1 kms2 : masterKeyKMS) (id : string)
    (ctx : Context) (ord : list (string * string)) :
  masterKey kms1 = masterKey kms2 ->
  deriveKey kms1 id ctx ord = deriveKey kms2 id ctx ord.
Proof.
  intros Hk. unfold deriveKey, hmac_New, mac_Write, mac_Sum. simpl.
  now rewrite Hk.
Qed.

(** A key comes back under every backend, key ID and context that derive
    the key it was sealed with. *)
Lemma UnsealKey_same_derived_key (kms' : masterKeyKMS) (id id' : string)
    (ctx ctx' : Context) (ord ord' : list (string * string)) (s s' : Store)
    (dataKey sealed : list byte) (err : option error) :
  (forall k p rnd c rnd' : list byte,
      sio_Encrypt k p rnd = ((c, None), rnd') ->
      sio_DecryptBuffer k c = (p, None)) ->
  GenerateKey id ctx ord s = (Returned (dataKey, sealed, err), s') ->
  deriveKey kms' id' ctx' ord' = deriveKey (self s) id ctx ord ->
  UnsealKey kms' id' sealed ctx' ord' = (dataKey, None).
Proof.
  intros Hrt Hgen Hdk.
  apply (GenerateKey_returned hmac_sha256 sio_Encrypt errOutOfEntropy)
    in Hgen as (Hpool & -> & _ & _ & Henc & _).
  rewrite UnsealKey_eq, Hdk, (Hrt _ _ _ _ _ Henc). simpl.
  rewrite append_at0_full; [reflexivity|].
  rewrite length_take. lia.
Qed.

(** X6. The key ID and the encoding of the context are authenticated one
    after the other with nothing in between, and neither is escaped: the
    key ID [id] with the context of the one entry [x], [v"}{"y":"w] derives
    the key of the key ID [id{"x":"v"}] with the context of the one entry
    [y], [w], on every backend. *)
Theorem deriveKey_value_with_object (kms : masterKeyKMS)
    (id x v y w : string) (ord1 ord2 : list (string * string)) :
  range_of (Context_map {[x := value_with_object v y w]}) ord1 ->
  range_of (Context_map {[y := w]}) ord2 ->
  deriveKey kms id (Context_map {[x := value_with_object v y w]}) ord1
  = deriveKey kms (key_id_with_object id x v) (Context_map {[y := w]}) ord2
  /\ id <> key_id_with_object id x v.
Proof.
  intros Hr1 Hr2. split; [|apply key_id_with_object_neq].
  rewrite !deriveKey_message by assumption.
  now rewrite framing_value_with_object.
Qed.

(** X7. A key sealed under a key ID and a context is unsealed, with a nil
    error, under any other key ID and context for which the bytes of the key
    ID followed by the encoding of the context are the same. *)
Theorem UnsealKey_under_same_framing (id id' : string) (ctx ctx' : Context)
    (ord ord' : list (string * string)) (s s' : Store)
    (dataKey sealed : list byte) (err : option error) :
  (forall k p rnd c rnd' : list byte,
      sio_Encrypt k p rnd = ((c, None), rnd') ->
      sio_DecryptBuffer k c = (p, None)) ->
  range_of ctx ord -> range_of ctx' ord' ->
  bytes_of_string id ++ AppendTo ctx ord []
  = bytes_of_string id' ++ AppendTo ctx' ord' [] ->
  GenerateKey id ctx ord s = (Returned (dataKey, sealed, err), s') ->
  UnsealKey (self s') id' sealed ctx' ord' = (dataKey, None).
Proof.
  intros Hrt Hr Hr' Hmsg Hgen.
  pose proof (GenerateKey_self hmac_sha256 sio_Encrypt errOutOfEntropy
                id ctx ord s) as Hself.
  rewrite Hgen in Hself. simpl in Hself.
  apply (UnsealKey_same_derived_key _ id id' ctx ctx' ord ord' s s' _ _ err
           Hrt Hgen).
  rewrite Hself, !deriveKey_message by assumption.
  rewrite !AppendTo_canonical in Hmsg by assumption. simpl in Hmsg.
  now rewrite Hmsg.
Qed.

(** X8. The default key ID of a backend takes no part in sealing: a key
    sealed by one backend is unsealed by every backend that holds the same
    master key, whatever its default key ID. *)
Theorem UnsealKey_on_backend_with_same_master_key (kms' : masterKeyKMS)
    (id : string) (ctx : Context) (ord ord' : list (string * string))
    (s s' : Store) (dataKey sealed : list byte) (err : option error) :
  (forall k p rnd c rnd' : list byte,
      sio_Encrypt k p rnd = ((c, None), rnd') ->
      sio_DecryptBuffer k c = (p, None)) ->
  range_of ctx ord -> range_of ctx ord' ->
  masterKey kms' = masterKey (self s) ->
  GenerateKey id ctx ord s = (Returned (dataKey, sealed, err), s') ->
  UnsealKey kms' id sealed ctx ord' = (dataKey, None).
Proof.
  intros Hrt Hr Hr' Hkey Hgen.
  apply (UnsealKey_same_derived_key _ id id ctx ctx ord ord' s s' _ _ err
           Hrt Hgen).
  rewrite (deriveKey_masterKey kms' (self s)) by exact Hkey.
  now apply deriveKey_order.
Qed.

End Collisions.

Lemma le_a_b : String.le "a" "b".
Proof. vm_compute. exact I. Qed.

Lemma range_of_singleton (k v : string) :
  range_of (Context_map {[k := v]}) [(k, v)].
Proof. unfold range_of. simpl entries. now rewrite map_to_list_singleton. Qed.

Lemma range_of_two_ab :
  range_of (Context_map (<["b" := "2"]> {["a" := "1"]}))
           [("a", "1"); ("b", "2")].
Proof. exact range_of_ctx_ab. Qed.

Lemma a_neq_b : ("a" : string) <> "b".
Proof. discriminate. Qed.

Lemma AppendTo_value_with_member_witness :
  String.le "a" "b" /\ ("a" : string) <> "b"
  /\ range_of (Context_map {["a" := value_with_member "1" "b" "2"]})
       [("a", value_with_member "1" "b" "2")]
  /\ range_of (Context_map (<["b" := "2"]> {["a" := "1"]}))
       [("a", "1"); ("b", "2")]
  /\ AppendTo (Context_map {["a" := value_with_member "1" "b" "2"]})
       [("a", value_with_member "1" "b" "2")] []
     = AppendTo (Context_map (<["b" := "2"]> {["a" := "1"]}))
         [("a", "1"); ("b", "2")] []
  /\ entries (Context_map {["a" := value_with_member "1" "b" "2"]}) !! "b"
     <> entries (Context_map (<["b" := "2"]> {["a" := "1"]})) !! "b".
Proof.
  split; [exact le_a_b|]. split; [exact a_neq_b|].
  split; [exact (range_of_singleton _ _)|]. split; [exact range_of_two_ab|].
  exact (AppendTo_value_with_member "a" "1" "b" "2" _ _ []
           le_a_b a_neq_b (range_of_singleton _ _) range_of_two_ab).
Defined.

Lemma deriveKey_value_with_object_witness :
  range_of (Context_map {["bucket" := value_with_object "b1" "object" "o1"]})
    [("bucket", value_with_object "b1" "object" "o1")]
  /\ range_of (Context_map {["object" := "o1"]}) [("object", "o1")]
  /\ deriveKey0 kms0 "default"
       (Context_map {["bucket" := value_with_object "b1" "object" "o1"]})
       [("bucket", value_with_object "b1" "object" "o1")]
     = deriveKey0 kms0 (key_id_with_object "default" "bucket" "b1")
         (Context_map {["object" := "o1"]}) [("object", "o1")]
  /\ "default" <> key_id_with_object "default" "bucket" "b1".
Proof.
  split; [exact (range_of_singleton _ _)|].
  split; [exact (range_of_singleton _ _)|].
  exact (deriveKey_value_with_object SHA256.hmac kms0 "default" "bucket" "b1"
           "object" "o1" _ _
           (range_of_singleton _ _) (range_of_singleton _ _)).
Defined.

Lemma GenerateKey0_two_ab :
  GenerateKey0 "default" (Context_map (<["b" := "2"]> {["a" := "1"]}))
    [("a", "1"); ("b", "2")] store0
  = (Returned
       (take 32 (rand_Reader store0),
        deriveKey0 (self store0) "default"
          (Context_map (<["b" := "2"]> {["a" := "1"]}))
          [("a", "1"); ("b", "2")] ++ take 32 (rand_Reader store0),
        None),
     {| self := self store0;
        rand_Reader := drop 12 (drop 32 (rand_Reader store0)) |}).
Proof. exact (GenerateKey_StandIn _ _ _ _ _ store0 pool64_length_44). Qed.

Lemma framing_two_ab :
  bytes_of_string "default"
    ++ AppendTo (Context_map (<["b" := "2"]> {["a" := "1"]}))
         [("a", "1"); ("b", "2")] []
  = bytes_of_string "default"
      ++ AppendTo (Context_map {["a" := value_with_member "1" "b" "2"]})
           [("a", value_with_member "1" "b" "2")] [].
Proof.
  rewrite (AppendTo_canonical _ _ _ range_of_two_ab).
  rewrite (AppendTo_canonical _ _ _ (range_of_singleton _ _)).
  now rewrite (canonical_value_with_member "a" "1" "b" "2" le_a_b a_neq_b).
Qed.

Lemma UnsealKey_under_same_framing_witness :
  (forall k p rnd c rnd' : list byte,
      StandIn.Encrypt k p rnd = ((c, None), rnd') ->
      StandIn.DecryptBuffer k c = (p, None))
  /\ range_of (Context_map (<["b" := "2"]> {["a" := "1"]}))
       [("a", "1"); ("b", "2")]
  /\ range_of (Context_map {["a" := value_with_member "1" "b" "2"]})
       [("a", value_with_member "1" "b" "2")]
  /\ bytes_of_string "default"
       ++ AppendTo (Context_map (<["b" := "2"]> {["a" := "1"]}))
            [("a", "1"); ("b", "2")] []
     = bytes_of_string "default"
         ++ AppendTo (Context_map {["a" := value_with_member "1" "b" "2"]})
              [("a", value_with_member "1" "b" "2")] []
  /\ GenerateKey0 "default" (Context_map (<["b" := "2"]> {["a" := "1"]}))
       [("a", "1"); ("b", "2")] store0
     = (Returned
          (take 32 (rand_Reader store0),
           deriveKey0 (self store0) "default"
             (Context_map (<["b" := "2"]> {["a" := "1"]}))
             [("a", "1"); ("b", "2")] ++ take 32 (rand_Reader store0),
           None),
        {| self := self store0;
           rand_Reader := drop 12 (drop 32 (rand_Reader store0)) |})
  /\ UnsealKey0
       (self {| self := self store0;
                rand_Reader := drop 12 (drop 32 (rand_Reader store0)) |})
       "default"
       (deriveKey0 (self store0) "default"
          (Context_map (<["b" := "2"]> {["a" := "1"]}))
          [("a", "1"); ("b", "2")] ++ take 32 (rand_Reader store0))
       (Context_map {["a" := value_with_member "1" "b" "2"]})
       [("a", value_with_member "1" "b" "2")]
     = (take 32 (rand_Reader store0), None).
Proof.
  split; [exact StandIn_round_trip|]. split; [exact range_of_two_ab|].
  split; [exact (range_of_singleton _ _)|]. split; [exact framing_two_ab|].
  split; [exact GenerateKey0_two_ab|].
  exact (UnsealKey_under_same_framing
           SHA256.hmac StandIn.Encrypt StandIn.DecryptBuffer
           StandIn.errOutOfEntropy "default" "default" _ _ _ _ store0 _ _ _
           None StandIn_round_trip range_of_two_ab (range_of_singleton _ _)
           framing_two_ab GenerateKey0_two_ab).
Defined.

Lemma UnsealKey_on_backend_with_same_master_key_witness :
  (forall k p rnd c rnd' : list byte,
      StandIn.Encrypt k p rnd = ((c, None), rnd') ->
      StandIn.DecryptBuffer k c = (p, None))
  /\ range_of ctx_o1 ord_o1
  /\ range_of ctx_o1 [("bucket", "b1"); ("object", "o1")]
  /\ masterKey (NewMasterKey "other" zero32) = masterKey (self store0)
  /\ GenerateKey0 "default" ctx_o1 ord_o1 store0
     = (Returned (take 32 pool64, sealed_o1, None), store1)
  /\ UnsealKey0 (NewMasterKey "other" zero32) "default" sealed_o1 ctx_o1
       [("bucket", "b1"); ("object", "o1")]
     = (take 32 pool64, None).
Proof.
  split; [exact StandIn_round_trip|]. split; [exact range_of_ctx_o1|].
  split; [exact range_of_ctx_o1_swapped|]. split; [reflexivity|].
  split; [exact GenerateKey0_store0|].
  exact (UnsealKey_on_backend_with_same_master_key
           SHA256.hmac StandIn.Encrypt StandIn.DecryptBuffer
           StandIn.errOutOfEntropy (NewMasterKey "other" zero32) "default"
           ctx_o1 ord_o1 [("bucket", "b1"); ("object", "o1")] store0 store1
           (take 32 pool64) sealed_o1 None
           StandIn_round_trip range_of_ctx_o1 range_of_ctx_o1_swapped
           eq_refl GenerateKey0_store0).
Defined.

(** ** Audit entries *)

Import Audit.

Lemma app_one_not_empty (t : string) (c : ascii) :
  t +:+ String c EmptyString <> EmptyString.
Proof. unfold String.app. destruct t; discriminate. Qed.

Lemma app_cons (a : ascii) (s t : string) :
  String a s +:+ t = String a (s +:+ t).
Proof. reflexivity. Qed.

Lemma app_empty_l (t : string) : EmptyString +:+ t = t.
Proof. reflexivity. Qed.

(** What [strings.Trim] leaves neither begins nor ends with the character. *)
Lemma trimLeftByte_not_first (s : string) (c : ascii) (t : string) :
  trimLeftByte s c <> String c t.
Proof.
  induction s as [|a s IH]; simpl; [discriminate|].
  destruct (Ascii.eqb a c) eqn:Hac; [exact IH|].
  intros [= -> _]. now rewrite Ascii.eqb_refl in Hac.
Qed.

Lemma trimRightByte_not_last (s : string) (c : ascii) :
  forall t : string, trimRightByte s c <> t +:+ String c EmptyString.
Proof.
  induction s as [|a s IH]; intros t; simpl.
  - intros Heq. symmetry in Heq. now apply app_one_not_empty in Heq.
  - destruct (trimRightByte s c) as [|b r] eqn:Hr.
    + destruct (Ascii.eqb a c) eqn:Hac.
      * intros Heq. symmetry in Heq. now apply app_one_not_empty in Heq.
      * destruct t as [|x t].
        -- rewrite app_empty_l. intros [= ->].
           now rewrite Ascii.eqb_refl in Hac.
        -- rewrite app_cons. intros [= _ Heq].
           symmetry in Heq. now apply app_one_not_empty in Heq.
    + destruct t as [|x t].
      * rewrite app_empty_l. discriminate.
      * rewrite app_cons. intros [= _ Heq]. now apply (IH t).
Qed.

Lemma trimLeftByte_keeps_last (s : string) (c : ascii) :
  (forall t : string, s <> t +:+ String c EmptyString) ->
  forall t : string, trimLeftByte s c <> t +:+ String c EmptyString.
Proof.
  induction s as [|a s IH]; intros Hs t; simpl.
  - intros Heq. symmetry in Heq. now apply app_one_not_empty in Heq.
  - destruct (Ascii.eqb a c); [|apply Hs].
    apply IH. intros t' ->. apply (Hs (String a t')). now rewrite app_cons.
Qed.

Lemma trimRightByte_snoc (s : string) (c : ascii) :
  trimRightByte (s +:+ String c EmptyString) c = trimRightByte s c.
Proof.
  induction s as [|a s IH].
  - rewrite app_empty_l. simpl. now rewrite Ascii.eqb_refl.
  - rewrite app_cons. simpl. now rewrite IH.
Qed.

Lemma trimRightByte_id (s : string) (c : ascii) :
  (forall t : string, s <> t +:+ String c EmptyString) ->
  trimRightByte s c = s.
Proof.
  induction s as [|a s IH]; intros Hs; [reflexivity|]. simpl.
  destruct s as [|b s].
  - simpl. destruct (Ascii.eqb a c) eqn:Hac; [|reflexivity].
    apply Ascii.eqb_eq in Hac as ->. exfalso.
    now apply (Hs EmptyString).
  - rewrite IH; [reflexivity|].
    intros t Heq. apply (Hs (String a t)). rewrite app_cons. now rewrite Heq.
Qed.

Lemma trimLeftByte_id (s : string) (c : ascii) :
  (forall t : string, s <> String c t) -> trimLeftByte s c = s.
Proof.
  destruct s as [|a s]; intros Hs; [reflexivity|]. simpl.
  destruct (Ascii.eqb a c) eqn:Hac; [|reflexivity].
  apply Ascii.eqb_eq in Hac as ->. exfalso. now apply (Hs s).
Qed.

(** A string between two occurrences of the character is cut free. *)
Lemma strings_Trim_between (s : string) (c : ascii) :
  (forall t : string, s <> String c t) ->
  (forall t : string, s <> t +:+ String c EmptyString) ->
  strings_Trim (String c (s +:+ String c EmptyString)) c = s.
Proof.
  intros Hfirst Hlast. unfold strings_Trim. cbn [trimRightByte].
  rewrite trimRightByte_snoc, (trimRightByte_id s c Hlast).
  destruct s as [|a s].
  - now rewrite Ascii.eqb_refl.
  - cbn [trimLeftByte]. rewrite Ascii.eqb_refl.
    exact (trimLeftByte_id (String a s) c Hfirst).
Qed.

(** The loop that joins the values builds the map of the joined values,
    whatever the order of the range. *)
Lemma join_all_snoc (l : list (string * list string))
    (kv : string * list string) :
  join_all (l ++ [kv]) = <[kv.1 := strings_Join kv.2 ","]> (join_all l).
Proof. unfold join_all. now rewrite foldl_snoc. Qed.

Lemma join_all_list_to_map (l : list (string * list string)) :
  join_all l
  = (fun v => strings_Join v ",") <$> (list_to_map (reverse l) : Values).
Proof.
  induction l as [|kv l IH] using rev_ind.
  - unfold join_all. simpl. now rewrite fmap_empty.
  - rewrite join_all_snoc, IH, reverse_snoc.
    destruct kv as [k v]. simpl. now rewrite fmap_insert.
Qed.

Lemma join_all_range (vs : Values) (ord : list (string * list string)) :
  range_of_values vs ord ->
  join_all ord = (fun v => strings_Join v ",") <$> vs.
Proof.
  unfold range_of_values. intros Hr. rewrite join_all_list_to_map.
  f_equal.
  transitivity (list_to_map (map_to_list vs) : Values);
    [|apply list_to_map_to_list].
  symmetry. apply list_to_map_proper.
  - apply NoDup_fst_map_to_list.
  - now rewrite reverse_Permutation, Hr.
Qed.

Section ToEntryProperties.

Variable xhttp_ETag : string.
Variable xhttp_AmzRequestID : string.
Variable CanonicalMIMEHeaderKey : string -> string.
Variable Rest : Type.
Variable handlers_GetSourceIP : Request Rest -> string.
Variable Claims : Type.

Local Abbreviation ToEntry :=
  (ToEntry xhttp_ETag xhttp_AmzRequestID CanonicalMIMEHeaderKey Rest
     handlers_GetSourceIP Claims).

(** X9. The response header of an entry always has the entity-tag key, also
    when the response has none, in which case its value is the empty string;
    its value is the comma-joined values of the response with the double
    quotes at both ends cut off, so it neither begins nor ends with one. *)
Theorem ToEntry_ETag_is_present_and_trimmed (wh : Values) (r : Request Rest)
    (reqClaims : Claims) (deploymentID now : string)
    (ordq ordh ordw : list (string * list string)) :
  range_of_values wh ordw ->
  RespHeader (ToEntry wh r reqClaims deploymentID now ordq ordh ordw)
    !! xhttp_ETag
  = Some (strings_Trim
            (strings_Join (default [] (wh !! xhttp_ETag)) ",") dquote)
  /\ (wh !! xhttp_ETag = None ->
      RespHeader (ToEntry wh r reqClaims deploymentID now ordq ordh ordw)
        !! xhttp_ETag = Some EmptyString)
  /\ (forall v : string,
         RespHeader (ToEntry wh r reqClaims deploymentID now ordq ordh ordw)
           !! xhttp_ETag = Some v ->
         forall t : string, v <> String dquote t /\ v <> t +:+ quote).
Proof.
  intros Hr.
  assert (RespHeader (ToEntry wh r reqClaims deploymentID now ordq ordh ordw)
            !! xhttp_ETag
          = Some (strings_Trim
                    (strings_Join (default [] (wh !! xhttp_ETag)) ",")
                    dquote)) as Hval.
  { unfold Audit.ToEntry. cbn [RespHeader]. rewrite lookup_insert_eq.
    rewrite (join_all_range wh ordw Hr), lookup_fmap.
    now destruct (wh !! xhttp_ETag). }
  split; [exact Hval|]. split.
  - intros Hnone. rewrite Hval, Hnone. reflexivity.
  - intros v Hv t. rewrite Hval in Hv. injection Hv as <-.
    unfold strings_Trim. split.
    + apply trimLeftByte_not_first.
    + apply trimLeftByte_keeps_last. apply trimRightByte_not_last.
Qed.

(** X10. The query, the request header and the response header of an entry
    hold, for each name, the values of that name joined by commas, in
    whichever order the three loops range over their maps; in the response
    header this is so for every name but the entity tag. *)
Theorem ToEntry_joins_values (wh : Values) (r : Request Rest)
    (reqClaims : Claims) (deploymentID now : string)
    (ordq ordh ordw : list (string * list string)) :
  range_of_values (URL_Query r) ordq ->
  range_of_values (Header r) ordh ->
  range_of_values wh ordw ->
  ReqQuery (ToEntry wh r reqClaims deploymentID now ordq ordh ordw)
  = (fun v => strings_Join v ",") <$> URL_Query r
  /\ ReqHeader (ToEntry wh r reqClaims deploymentID now ordq ordh ordw)
     = (fun v => strings_Join v ",") <$> Header r
  /\ (forall k : string,
         k <> xhttp_ETag ->
         RespHeader (ToEntry wh r reqClaims deploymentID now ordq ordh ordw)
           !! k
         = (fun v => strings_Join v ",") <$> wh !! k).
Proof.
  intros Hq Hh Hw. unfold Audit.ToEntry.
  cbn [ReqQuery ReqHeader RespHeader].
  split; [now apply join_all_range|]. split; [now apply join_all_range|].
  intros k Hk. rewrite lookup_insert_ne by (intros Heq; now apply Hk).
  now rewrite (join_all_range wh ordw Hw), lookup_fmap.
Qed.

(** X11. An entity tag that the response gives once and between double
    quotes is entered without them. *)
Theorem ToEntry_unquotes_ETag (wh : Values) (r : Request Rest)
    (reqClaims : Claims) (deploymentID now : string)
    (ordq ordh ordw : list (string * list string)) (tag : string) :
  range_of_values wh ordw ->
  wh !! xhttp_ETag = Some [String dquote (tag +:+ quote)] ->
  (forall t : string, tag <> String dquote t) ->
  (forall t : string, tag <> t +:+ quote) ->
  RespHeader (ToEntry wh r reqClaims deploymentID now ordq ordh ordw)
    !! xhttp_ETag = Some tag.
Proof.
  intros Hr Htag Hfirst Hlast.
  unfold Audit.ToEntry. cbn [RespHeader]. rewrite lookup_insert_eq.
  rewrite (join_all_range wh ordw Hr), lookup_fmap, Htag.
  cbn [fmap option_fmap option_map default strings_Join].
  unfold id. change quote with (String dquote EmptyString) in *.
  now rewrite strings_Trim_between.
Qed.

End ToEntryProperties.

Lemma range_of_wh0 : range_of_values wh0 ord_wh0.
Proof.
  unfold range_of_values, ord_wh0. vm_compute map_to_list. apply perm_swap.
Qed.

Lemma range_of_r0_query :
  range_of_values (URL_Query r0) [("prefix", ["a"; "b"])].
Proof. unfold range_of_values. vm_compute map_to_list. reflexivity. Qed.

Lemma range_of_r0_header :
  range_of_values (Header r0) [("User-Agent", ["mc"])].
Proof. unfold range_of_values. vm_compute map_to_list. reflexivity. Qed.

Lemma ToEntry_ETag_is_present_and_trimmed_witness :
  range_of_values wh0 ord_wh0
  /\ RespHeader (ToEntry0 wh0 r0 tt "dep" "now" [] [] ord_wh0) !! "ETag"
     = Some (strings_Trim
               (strings_Join (default [] (wh0 !! "ETag")) ",") dquote)
  /\ (wh0 !! "ETag" = None ->
      RespHeader (ToEntry0 wh0 r0 tt "dep" "now" [] [] ord_wh0) !! "ETag"
      = Some EmptyString)
  /\ (forall v : string,
         RespHeader (ToEntry0 wh0 r0 tt "dep" "now" [] [] ord_wh0) !! "ETag"
         = Some v ->
         forall t : string, v <> String dquote t /\ v <> t +:+ quote).
Proof.
  split; [exact range_of_wh0|].
  exact (ToEntry_ETag_is_present_and_trimmed
           "ETag" "x-amz-request-id" (fun key : string => key) unit
           (fun _ : Request unit => "127.0.0.1") unit
           wh0 r0 tt "dep" "now" [] [] ord_wh0 range_of_wh0).
Defined.

Lemma ToEntry_joins_values_witness :
  range_of_values (URL_Query r0) [("prefix", ["a"; "b"])]
  /\ range_of_values (Header r0) [("User-Agent", ["mc"])]
  /\ range_of_values wh0 ord_wh0
  /\ ReqQuery (ToEntry0 wh0 r0 tt "dep" "now" [("prefix", ["a"; "b"])]
                 [("User-Agent", ["mc"])] ord_wh0)
     = (fun v => strings_Join v ",") <$> URL_Query r0
  /\ ReqHeader (ToEntry0 wh0 r0 tt "dep" "now" [("prefix", ["a"; "b"])]
                  [("User-Agent", ["mc"])] ord_wh0)
     = (fun v => strings_Join v ",") <$> Header r0
  /\ (forall k : string,
         k <> "ETag" ->
         RespHeader (ToEntry0 wh0 r0 tt "dep" "now" [("prefix", ["a"; "b"])]
                       [("User-Agent", ["mc"])] ord_wh0) !! k
         = (fun v => strings_Join v ",") <$> wh0 !! k).
Proof.
  split; [exact range_of_r0_query|]. split; [exact range_of_r0_header|].
  split; [exact range_of_wh0|].
  exact (ToEntry_joins_values
           "ETag" "x-amz-request-id" (fun key : string => key) unit
           (fun _ : Request unit => "127.0.0.1") unit
           wh0 r0 tt "dep" "now" _ _ ord_wh0
           range_of_r0_query range_of_r0_header range_of_wh0).
Defined.

Lemma wh0_ETag :
  wh0 !! "ETag" = Some [String dquote ("5d41402a" +:+ quote)].
Proof. reflexivity. Qed.

Lemma tag_not_first (t : string) : "5d41402a" <> String dquote t.
Proof. discriminate. Qed.

Lemma tag_not_last (t : string) : "5d41402a" <> t +:+ quote.
Proof.
  intros Heq. apply (trimRightByte_not_last "5d41402a" dquote t). exact Heq.
Qed.

Lemma ToEntry_unquotes_ETag_witness :
  range_of_values wh0 ord_wh0
  /\ wh0 !! "ETag" = Some [String dquote ("5d41402a" +:+ quote)]
  /\ (forall t : string, "5d41402a" <> String dquote t)
  /\ (forall t : string, "5d41402a" <> t +:+ quote)
  /\ RespHeader (ToEntry0 wh0 r0 tt "dep" "now" [] [] ord_wh0) !! "ETag"
     = Some "5d41402a".
Proof.
  split; [exact range_of_wh0|]. split; [exact wh0_ETag|].
  split; [exact tag_not_first|]. split; [exact tag_not_last|].
  exact (ToEntry_unquotes_ETag
           "ETag" "x-amz-request-id" (fun key : string => key) unit
           (fun _ : Request unit => "127.0.0.1") unit
           wh0 r0 tt "dep" "now" [] [] ord_wh0 "5d41402a"
           range_of_wh0 wh0_ETag tag_not_first tag_not_last).
Defined.

(** ** The length of the encoding *)

Lemma members_length_sum (c : Context) (ks : list string) :
  (length (members c ks) + (if bool_decide (ks = []) then 0 else 1)
   = sum_list_with
       (fun k => length (bytes_of_string k)
                 + length (bytes_of_string (index c k)) + 6) ks)%nat.
Proof.
  induction ks as [|k ks IH]; [reflexivity|].
  rewrite members_cons.
  rewrite (bool_decide_eq_false_2 (k :: ks = [])) by discriminate.
  cbn [sum_list_with]. rewrite <- IH.
  unfold member. rewrite !length_app. cbn [length].
  destruct (bool_decide (ks = [])); cbn [length]; lia.
Qed.

Lemma sum_over_entries (c : Context) (l : list (string * string)) :
  (forall kv, kv ∈ l -> entries c !! kv.1 = Some kv.2) ->
  sum_list_with
    (fun k => length (bytes_of_string k)
              + length (bytes_of_string (index c k)) + 6)%nat (l.*1)
  = sum_list_with
      (fun kv => length (bytes_of_string kv.1)
                 + length (bytes_of_string kv.2) + 6)%nat l.
Proof.
  induction l as [|[k v] l IH]; intros Hl; [reflexivity|].
  cbn [fmap list_fmap sum_list_with fst snd].
  rewrite IH by (intros kv Hin; apply Hl; now apply list_elem_of_further).
  pose proof (Hl (k, v) (list_elem_of_here _ _)) as Hkv. simpl in Hkv.
  unfold index. now rewrite Hkv.
Qed.

(** X12. [AppendTo] adds two bytes for the braces and, for every entry, the
    bytes of its key and of its value and six more, less the one comma that
    the last member does not have. *)
Theorem AppendTo_length (c : Context) (ord : list (string * string))
    (dst : list byte) :
  range_of c ord ->
  (length (AppendTo c ord dst) + (if (len c =? 0)%nat then 0 else 1)
   = length dst + 2
     + sum_list_with
         (fun kv => length (bytes_of_string kv.1)
                    + length (bytes_of_string kv.2) + 6) ord)%nat.
Proof.
  intros Hr. rewrite AppendTo_canonical by exact Hr.
  unfold canonical. rewrite !length_app. cbn [length].
  set (ks := sort_Strings _).
  assert (bool_decide (ks = []) = (len c =? 0)%nat) as Hempty.
  { unfold len. rewrite <- length_map_to_list.
    rewrite <- (length_fmap fst), <- (sort_Strings_length _). fold ks.
    destruct ks; reflexivity. }
  pose proof (members_length_sum c ks) as Hsum. rewrite Hempty in Hsum.
  assert (sum_list_with
            (fun k => length (bytes_of_string k)
                      + length (bytes_of_string (index c k)) + 6)%nat ks
          = sum_list_with
              (fun kv => length (bytes_of_string kv.1)
                         + length (bytes_of_string kv.2) + 6)%nat ord)
    as Hord.
  { unfold ks, sort_Strings. rewrite merge_sort_Permutation.
    rewrite sum_over_entries.
    - unfold range_of in Hr. now rewrite Hr.
    - intros [k v] Hin. now apply elem_of_map_to_list. }
  rewrite <- Hord, <- Hsum. lia.
Qed.

Lemma AppendTo_length_witness :
  range_of ctx_ab [("b", "2"); ("a", "1")]
  /\ (length (AppendTo ctx_ab [("b", "2"); ("a", "1")] [])
      + (if (len ctx_ab =? 0)%nat then 0 else 1)
      = length ([] : list byte) + 2
        + sum_list_with
            (fun kv => length (bytes_of_string kv.1)
                       + length (bytes_of_string kv.2) + 6)
            [("b", "2"); ("a", "1")])%nat.
Proof.
  assert (range_of ctx_ab [("b", "2"); ("a", "1")]) as Hr
    by exact range_of_ctx_ba.
  split; [exact Hr|].
  exact (AppendTo_length ctx_ab [("b", "2"); ("a", "1")] [] Hr).
Defined.

(** ** The random source *)

Section RandomSource.

Variable hmac_sha256 : list byte -> list byte -> list byte.
Variable sio_Encrypt :
  list byte -> list byte -> list byte -> (list byte * option error) * list byte.
Variable sio_DecryptBuffer :
  list byte -> list byte -> list byte * option error.
Variable errOutOfEntropy : error.

Local Abbreviation GenerateKey :=
  (GenerateKey hmac_sha256 sio_Encrypt errOutOfEntropy).
Local Abbreviation call :=
  (call hmac_sha256 sio_Encrypt sio_DecryptBuffer errOutOfEntropy).

(** X13. Only [GenerateKey] reads the random source: a call of another
    method leaves it as it was. A [GenerateKey] that returns has drawn its
    key first, the first 32 bytes of the source; the sealing call then reads
    from what follows, for its nonce, and the source is left as the sealing
    library left it, so past the bytes of the key when the library only
    takes bytes from the front. When the source cannot deliver 32 bytes,
    [GenerateKey] ends in the fatal condition for missing entropy, whatever
    the sealing library would have done. *)
Theorem only_GenerateKey_reads_the_random_source (s : Store) :
  (forall c : Call,
      (forall id ctx ord, c <> CallGenerateKey id ctx ord) ->
      rand_Reader (call c s).2 = rand_Reader s)
  /\ (forall (id : string) (ctx : Context) (ord : list (string * string))
             (key sealed : list byte) (err : option error) (s' : Store),
         GenerateKey id ctx ord s = (Returned (key, sealed, err), s') ->
         (32 <= length (rand_Reader s))%nat
         /\ key = take 32 (rand_Reader s)
         /\ rand_Reader s'
            = (sio_Encrypt (deriveKey hmac_sha256 (self s) id ctx ord) key
                 (drop 32 (rand_Reader s))).2
         /\ ((forall k p rnd : list byte,
                 exists n : nat, (sio_Encrypt k p rnd).2 = drop n rnd) ->
             exists n : nat, rand_Reader s' = drop (32 + n) (rand_Reader s)))
  /\ (forall (id : string) (ctx : Context) (ord : list (string * string)),
         (length (rand_Reader s) < 32)%nat ->
         (GenerateKey id ctx ord s).1 = Fatal errOutOfEntropy).
Proof.
  split; [|split].
  - intros c Hc.
    destruct c as [|id|id ctx ord|id sealed ctx ord|]; try reflexivity.
    + now destruct (Hc id ctx ord).
    + unfold call, bind, get_self.
      now destruct (UnsealKey _ _ _ _ _ _ _).
  - intros id ctx ord key sealed err s' Hgen.
    apply (GenerateKey_returned hmac_sha256 sio_Encrypt errOutOfEntropy)
      in Hgen as (Hpool & -> & _ & _ & Henc & _).
    split; [exact Hpool|]. split; [reflexivity|].
    split; [now rewrite Henc|].
    intros Hfront.
    destruct (Hfront (deriveKey hmac_sha256 (self s) id ctx ord)
                (take 32 (rand_Reader s)) (drop 32 (rand_Reader s)))
      as [n Hn].
    exists n. rewrite Henc in Hn. simpl in Hn.
    rewrite Hn, drop_drop. reflexivity.
  - intros id ctx ord Hshort. rewrite GenerateKey_eq.
    replace (32 <=? length (rand_Reader s))%nat with false
      by (symmetry; apply Nat.leb_gt; lia).
    reflexivity.
Qed.

End RandomSource.

Lemma short_pool : (length (rand_Reader {| self := kms0;
                                           rand_Reader := take 5 pool64 |})
                    < 32)%nat.
Proof. vm_compute. lia. Qed.

(** The stand-in takes its nonce from the front of the source. *)
Lemma StandIn_reads_front (k p rnd : list byte) :
  exists n : nat, (StandIn.Encrypt k p rnd).2 = drop n rnd.
Proof.
  unfold StandIn.Encrypt.
  destruct (length k =? 32)%nat; [|now exists 0%nat].
  destruct (12 <=? length rnd)%nat; [now exists 12%nat|].
  exists (length rnd). simpl. now rewrite drop_all.
Qed.

Lemma only_GenerateKey_reads_the_random_source_witness :
  (forall id ctx ord, CallInfo <> CallGenerateKey id ctx ord)
  /\ rand_Reader
       (call SHA256.hmac StandIn.Encrypt StandIn.DecryptBuffer
          StandIn.errOutOfEntropy CallInfo store0).2
     = rand_Reader store0
  /\ GenerateKey0 "default" ctx_o1 ord_o1 store0
     = (Returned (take 32 pool64, sealed_o1, None), store1)
  /\ (forall k p rnd : list byte,
         exists n : nat, (StandIn.Encrypt k p rnd).2 = drop n rnd)
  /\ (exists n : nat, rand_Reader store1 = drop (32 + n) (rand_Reader store0))
  /\ (length (rand_Reader {| self := kms0; rand_Reader := take 5 pool64 |})
      < 32)%nat
  /\ (GenerateKey0 "default" ctx_o1 ord_o1
        {| self := kms0; rand_Reader := take 5 pool64 |}).1
     = Fatal StandIn.errOutOfEntropy.
Proof.
  assert (forall id ctx ord, CallInfo <> CallGenerateKey id ctx ord) as Hc
    by discriminate.
  split; [exact Hc|].
  split;
    [exact (proj1 (only_GenerateKey_reads_the_random_source
                     SHA256.hmac StandIn.Encrypt StandIn.DecryptBuffer
                     StandIn.errOutOfEntropy store0) CallInfo Hc)|].
  split; [exact GenerateKey0_store0|].
  split; [exact StandIn_reads_front|].
  split;
    [exact (proj2 (proj2 (proj2
              (proj1 (proj2 (only_GenerateKey_reads_the_random_source
                               SHA256.hmac StandIn.Encrypt
                               StandIn.DecryptBuffer
                               StandIn.errOutOfEntropy store0))
                 "default" ctx_o1 ord_o1 (take 32 pool64) sealed_o1 None
                 store1 GenerateKey0_store0)))
              StandIn_reads_front)|].
  split; [exact short_pool|].
  exact (proj2 (proj2 (only_GenerateKey_reads_the_random_source
                         SHA256.hmac StandIn.Encrypt StandIn.DecryptBuffer
                         StandIn.errOutOfEntropy
                         {| self := kms0; rand_Reader := take 5 pool64 |}))
           "default" ctx_o1 ord_o1 short_pool).
Defined.

(** ** The order of the members *)

Lemma StronglySorted_strict (l : list string) :
  StronglySorted String.le l -> NoDup l ->
  StronglySorted (fun a b => String.le a b /\ a <> b) l.
Proof.
  induction 1 as [|a l Hs IH Hall]; intros Hnd; [constructor|].
  apply NoDup_cons in Hnd as [Hnotin Hnd].
  constructor; [now apply IH|].
  rewrite Forall_forall in Hall. apply Forall_forall.
  intros b Hb. split; [now apply Hall|].
  intros ->. now apply Hnotin.
Qed.

(** X14. Whatever the order of the range, [AppendTo] writes one member for
    each key of the context, in strictly ascending order of the keys, byte
    by byte, between the two braces. *)
Theorem AppendTo_members_ascending (c : Context)
    (ord : list (string * string)) (dst : list byte) :
  range_of c ord ->
  exists ks : list string,
    StronglySorted (fun a b => String.le a b /\ a <> b) ks
    /\ (forall k : string, k ∈ ks <-> is_Some (entries c !! k))
    /\ AppendTo c ord dst = dst ++ [lbrace] ++ members c ks ++ [rbrace].
Proof.
  intros Hr. exists (sort_Strings ((map_to_list (entries c)).*1)).
  split; [|split].
  - apply StronglySorted_strict.
    + unfold sort_Strings. apply StronglySorted_merge_sort; apply _.
    + unfold sort_Strings. rewrite merge_sort_Permutation.
      apply NoDup_fst_map_to_list.
  - intros k. apply elem_of_sorted_keys.
  - now rewrite AppendTo_canonical.
Qed.

Lemma AppendTo_members_ascending_witness :
  range_of ctx_ba [("b", "2"); ("a", "1")]
  /\ exists ks : list string,
      StronglySorted (fun a b => String.le a b /\ a <> b) ks
      /\ (forall k : string, k ∈ ks <-> is_Some (entries ctx_ba !! k))
      /\ AppendTo ctx_ba [("b", "2"); ("a", "1")] []
         = [] ++ [lbrace] ++ members ctx_ba ks ++ [rbrace].
Proof.
  split; [exact range_of_ctx_ba|].
  exact (AppendTo_members_ascending ctx_ba [("b", "2"); ("a", "1")] []
           range_of_ctx_ba).
Defined.

(** With the stand-in as with [sio], which takes twelve bytes for its nonce:
    of a source of 200 bytes 156 are left after one [GenerateKey], and a
    source of 40 bytes delivers the key but not the nonce, so the sealing
    fails and the call ends in the fatal condition. *)
Example GenerateKey0_draws_key_and_nonce :
  length (rand_Reader
            (GenerateKey0 "default" ctx_o1 ord_o1
               {| self := kms0; rand_Reader := replicate 200 x07 |}).2)
  = 156%nat.
Proof. vm_compute. reflexivity. Qed.

Example GenerateKey0_40_bytes :
  (GenerateKey0 "default" ctx_o1 ord_o1
     {| self := kms0; rand_Reader := replicate 40 x07 |}).1
  = Fatal (errors_New "KMS: unable to encrypt data key").
Proof. vm_compute. reflexivity. Qed.
